(** * Pinboard-to-Raindrop migration: classification and reconciliation core

    A shallow embedding of [pinboard_to_raindrop.py] and
    [suggest_collections.py], followed by the properties of the tag
    normaliser, the rule matcher, the rule loader, the reconciliation
    loop and the reclassifier. *)

From Stdlib Require Import ZArith String Ascii List Lia Sorting.Sorted.
From Stdlib Require Import Structures.OrdersEx Floats.SpecFloat DecimalString.
From stdpp Require Import base option list sorting sets gmap strings.

Set Warnings "-register-all,-clear-no-such-hyp".
Open Scope string_scope.
Open Scope Z_scope.

(** ** Python values and built-ins used by the two scripts *)

Module Py.

(** Exceptions that the modelled code raises or lets through.  The
    two [HTTPError] subclasses of httpx are kept apart because the scripts
    catch them at different places. *)
Inductive exn : Type :=
| ValueError (msg : string)
| TypeError
| OverflowError
| KeyError (key : string)
| RequestError          (* httpx.RequestError <: httpx.HTTPError *)
| HTTPStatusError       (* httpx.HTTPStatusError <: httpx.HTTPError *)
| SystemExit (code : Z).

Inductive result (A : Type) : Type :=
| Ok (a : A)
| Raise (e : exn).
Arguments Ok {A} a.
Arguments Raise {A} e.

Definition option_of {A} (r : result A) : option A :=
  match r with Ok a => Some a | Raise _ => None end.

(** What [json.load] produces. Objects are finite maps: a parsed dict has
    one value per key. *)
Inductive json : Type :=
| JNull
| JBool (b : bool)
| JInt (n : Z)
| JFloat (f : spec_float)
| JStr (s : string)
| JList (l : list json)
| JObj (o : gmap string json).

(** [isinstance(v, list) and all(isinstance(t, str) for t in v)], with the
    strings when it holds. *)
Fixpoint strs_of (l : list json) : option (list string) :=
  match l with
  | [] => Some []
  | JStr s :: l' => match strs_of l' with Some r => Some (s :: r) | None => None end
  | _ :: _ => None
  end.

Definition str_list (v : json) : option (list string) :=
  match v with JList l => strs_of l | _ => None end.

(** [x in l] for a list of strings: some element equals [x]. *)
Definition contains (x : string) (l : list string) : bool :=
  existsb (String.eqb x) l.

(** [str(n)] and the [{n}] of an f-string, for integers. *)
Definition str_of_nat (n : nat) : string := NilZero.string_of_uint (Nat.to_uint n).
Definition str_of_Z (n : Z) : string := NilZero.string_of_int (Z.to_int n).

(** [bool(v)] for a string. *)
Definition truthy_str (s : string) : bool :=
  match s with EmptyString => false | String _ _ => true end.

(** [v.get(k)] followed by a truth test, for string-valued fields. *)
Definition truthy_opt (o : option string) : bool :=
  match o with Some s => truthy_str s | None => false end.

(** [s.split(sep)] for a one-character separator: the pieces between
    consecutive separators, empty pieces included. *)
Fixpoint split (sep : ascii) (s : string) : list string :=
  match s with
  | EmptyString => [EmptyString]
  | String c s' =>
      if Ascii.eqb c sep then EmptyString :: split sep s'
      else match split sep s' with
           | tok :: rest => String c tok :: rest
           | [] => [String c EmptyString]
           end
  end.

(** [sep.join(l)], used to state what [split] computes. *)
Fixpoint join (sep : ascii) (l : list string) : string :=
  match l with
  | [] => EmptyString
  | [tok] => tok
  | tok :: rest => tok ++ String sep (join sep rest)
  end.

(** [sep not in s] *)
Definition free_of (sep : ascii) (s : string) : Prop :=
  ~ In sep (list_ascii_of_string s).

(** Order of [str] values: code point order, which on UTF-8 byte strings is
    the lexicographic order of the bytes. *)
Definition str_le (a b : string) : Prop := String_as_OT.compare a b <> Gt.
Definition str_lt (a b : string) : Prop := String_as_OT.compare a b = Lt.

#[global] Instance str_le_dec : RelDecision str_le.
Proof. intros a b. unfold str_le. destruct (String_as_OT.compare a b); [left|left|right]; congruence. Defined.

(** [sorted(s)] for a set of strings. *)
Definition sorted (s : gset string) : list string :=
  merge_sort str_le (elements s).

(** [set(l)] for a list of strings. *)
Definition set (l : list string) : gset string := list_to_set l.

(** [int(x)] for a float: truncation towards zero. *)
Definition int_of_float (f : spec_float) : result Z :=
  match f with
  | S754_zero _ => Ok 0
  | S754_infinity _ => Raise OverflowError
  | S754_nan => Raise (ValueError "cannot convert float NaN to integer")
  | S754_finite sg m e =>
      (* the value is +/- m * 2^e; a negative e shifts right *)
      let mag := Z.shiftl (Zpos m) e in
      Ok (if sg then - mag else mag)
  end.

(** The parts of the interpreter and its library that depend on the Unicode
    tables or on address syntax: [str.lower], [int] applied to a [str], and
    the validity checks that [urllib.parse] runs on a network location that
    has both brackets or a character outside ASCII. *)
Class Interpreter : Type := {
  lower : string -> string;
  int_of_str : string -> result Z;
  netloc_checks : string -> result unit
}.

(** [int(x)] on a parsed JSON value. *)
Definition int `{Interpreter} (v : json) : result Z :=
  match v with
  | JInt n => Ok n
  | JBool b => Ok (if b then 1 else 0)
  | JFloat f => int_of_float f
  | JStr s => int_of_str s
  | JNull | JList _ | JObj _ => Raise TypeError
  end.

(** An interpreter restricted to ASCII text, for running the model. *)
Definition ascii_lower_char (c : ascii) : ascii :=
  let n := nat_of_ascii c in
  if (Nat.leb 65 n && Nat.leb n 90)%bool then ascii_of_nat (n + 32) else c.

Fixpoint ascii_lower (s : string) : string :=
  match s with
  | EmptyString => EmptyString
  | String c s' => String (ascii_lower_char c) (ascii_lower s')
  end.

Fixpoint digits_value (acc : Z) (s : string) : option Z :=
  match s with
  | EmptyString => Some acc
  | String c s' =>
      let n := nat_of_ascii c in
      if (Nat.leb 48 n && Nat.leb n 57)%bool
      then digits_value (10 * acc + Z.of_nat (n - 48)) s'
      else None
  end.

Definition ascii_int_of_str (s : string) : result Z :=
  let bad := Raise (ValueError "invalid literal for int() with base 10") in
  match s with
  | EmptyString => bad
  | String "-" (String _ _ as d) =>
      match digits_value 0 d with Some n => Ok (- n) | None => bad end
  | _ => match digits_value 0 s with Some n => Ok n | None => bad end
  end.

Definition ascii_interpreter : Interpreter :=
  {| lower := ascii_lower; int_of_str := ascii_int_of_str;
     netloc_checks := fun _ => Ok tt |}.

End Py.

(** ** State and exceptions

    The scripts talk to the Raindrop service through one [httpx.Client].
    [W] is the state of everything behind that client; a computation takes
    it, returns the new one, and either a value or the exception raised. *)

Module Eff.
Import Py.

Definition M (W A : Type) : Type := W -> W * result A.

Definition ret {W A} (a : A) : M W A := fun w => (w, Ok a).

Definition raise {W A} (e : exn) : M W A := fun w => (w, Raise e).

Definition bind {W A B} (m : M W A) (k : A -> M W B) : M W B :=
  fun w => match m w with
           | (w', Ok a) => k a w'
           | (w', Raise e) => (w', Raise e)
           end.

(** [try: m except <classes>: h], the handler run when the raised exception
    is an instance of a caught class. *)
Definition try_except {W A} (m : M W A) (caught : exn -> bool) (h : M W A) : M W A :=
  fun w => match m w with
           | (w', Ok a) => (w', Ok a)
           | (w', Raise e) => if caught e then h w' else (w', Raise e)
           end.

(** [except httpx.HTTPError] catches both subclasses, [except
    httpx.HTTPStatusError] only the one. *)
Definition HTTPError (e : exn) : bool :=
  match e with RequestError | HTTPStatusError => true | _ => false end.

Definition HTTPStatusError_only (e : exn) : bool :=
  match e with HTTPStatusError => true | _ => false end.

Definition ValueError_any (e : exn) : bool :=
  match e with ValueError _ => true | _ => false end.

Definition lift {W A} (r : result A) : M W A := fun w => (w, r).

End Eff.

Declare Scope eff_scope.
Delimit Scope eff_scope with eff.
Notation "x <- m ;; k" := (Eff.bind m (fun x => k))
  (at level 100, m at next level, right associativity) : eff_scope.
Notation "m ;;; k" := (Eff.bind m (fun _ => k))
  (at level 100, right associativity) : eff_scope.

(** ** The Raindrop API as the scripts use it *)

Module Raindrop.
Import Py Eff.

(** An item of a [GET /raindrops/0] answer. Of its fields the scripts read
    ["_id"], ["tags"] and ["link"]; ["tags"] may be absent. *)
Record item : Type := {
  item_id : Z;
  item_tags : option (list string);
  item_link : option string
}.

(** An [httpx.Response]: whether [raise_for_status] passes, and the decoded
    body. *)
Record response (A : Type) : Type := {
  status_ok : bool;
  body : A
}.
Arguments status_ok {A} r.
Arguments body {A} r.

(** The body sent by [create_raindrop]. *)
Record payload : Type := {
  link : string;
  title : string;
  tags : list string;
  important : bool;
  collection : Z;                  (* {"$id": ...} *)
  note : option string;
  excerpt : option string;
  created : option string;
  lastUpdate : option string
  (* "pleaseParse": {"mode": "tags"} is the same in every payload *)
}.

(** The three requests. Each may raise (a transport failure is a
    [RequestError]) or answer; the body of a search answer is its ["items"]
    list, empty when the key is absent. *)
Class Client (W : Type) : Type := {
  client_get : string -> list (string * json) -> M W (response (list item));
  client_post : string -> payload -> M W (response unit);
  client_put : string -> gmap string json -> M W (response unit)
}.

(** [response.raise_for_status()] *)
Definition raise_for_status {W A} (r : response A) : M W unit :=
  if status_ok r then ret tt else raise HTTPStatusError.

End Raindrop.

(** ** pinboard_to_raindrop.py *)

Module pinboard_to_raindrop.
Import Py Eff Raindrop.
Local Open Scope eff_scope.

(** A rule as [load_collection_map] builds it. *)
Record rule : Type := {
  rule_collection_id : Z;
  rule_tags : list string;
  rule_name : json
}.

(** The options of [parse_args] that the modelled code reads. [sleep],
    [timeout] and [log_file] only affect timing and logging. *)
Record args : Type := {
  collection_id : Z;
  readlater_collection_id : option Z;
  toread_tag : string;
  lowercase_tags : bool;
  skip_existing : bool;
  merge_tags : bool;
  limit : option Z;
  dry_run : bool
}.

(** A Pinboard post: a JSON object whose values are all strings. *)
Abbreviation entry := (gmap string string).

Section Loader.
Context `{Interpreter}.

(** The body of the [for idx, rule in enumerate(data)] loop and the loop
    itself; [rules] is the list being appended to. *)
Fixpoint load_collection_map_loop (idx : nat) (data : list json) (rules : list rule)
  : result (list rule) :=
  match data with
  | [] => Ok rules
  | JObj r :: rest =>
      match r !! "collection_id", r !! "tags" with
      | Some cid, Some tags =>
          match str_list tags with
          | None =>
              Raise (ValueError ("rule " ++ str_of_nat idx ++ " tags must be a list of strings"))
          | Some ts =>
              match int cid with
              | Raise e => Raise e
              | Ok n =>
                  load_collection_map_loop (S idx) rest
                    (rules ++ [ {| rule_collection_id := n;
                                   rule_tags := ts;
                                   rule_name := default JNull (r !! "name") |} ])%list
              end
          end
      | _, _ =>
          Raise (ValueError ("rule " ++ str_of_nat idx ++ " must include collection_id and tags"))
      end
  | _ :: _ => Raise (ValueError ("rule " ++ str_of_nat idx ++ " must be an object"))
  end.

(** [path] is [None] when no map was given, else the parsed content of the
    file. *)
Definition load_collection_map (path : option json) : result (list rule) :=
  match path with
  | None => Ok []
  | Some (JList data) => load_collection_map_loop 0 data []
  | Some _ => Raise (ValueError "collection map must be a JSON list")
  end.

Definition normalize_tags (tag_str : string) (lowercase toread : bool) (toread_tag : string)
  : list string :=
  let tags := List.filter truthy_str (split " "%char tag_str) in
  let tags := if toread && truthy_str toread_tag then (tags ++ [toread_tag])%list else tags in
  let tags := if lowercase then map lower tags else tags in
  sorted (set tags).

End Loader.

(** [any(tag in tags for tag in rule["tags"])] *)
Definition rule_matches (tags : list string) (r : rule) : bool :=
  existsb (fun tag => contains tag tags) (rule_tags r).

Fixpoint guess_collection_from_tags (tags : list string) (rules : list rule) (default_id : Z)
  : Z :=
  match rules with
  | [] => default_id
  | r :: rest =>
      if rule_matches tags r then rule_collection_id r
      else guess_collection_from_tags tags rest default_id
  end.

Definition select_collection_id (e : entry) (tags : list string) (default_id : Z)
    (readlater_id : option Z) (rules : list rule) : Z :=
  match readlater_id with
  | Some rid =>
      if bool_decide (e !! "toread" = Some "yes") then rid
      else guess_collection_from_tags tags rules default_id
  | None => guess_collection_from_tags tags rules default_id
  end.

Section Builder.
Context `{Interpreter}.

(** [a] is the parsed command line. [entry["href"]] raises [KeyError] when
    the key is absent. *)
Definition pinboard_to_raindrop_payload (e : entry) (a : args) (rules : list rule)
  : result payload :=
  let toread_flag := bool_decide (e !! "toread" = Some "yes") in
  let tags := normalize_tags (default "" (e !! "tags")) (lowercase_tags a)
                toread_flag (toread_tag a) in
  match e !! "href" with
  | None => Raise (KeyError "href")
  | Some href =>
      let extended := e !! "extended" in
      let time := e !! "time" in
      Ok {| link := href;
            title := (if truthy_opt (e !! "description")
                      then default "" (e !! "description") else href);
            tags := tags;
            important := contains "starred" tags;
            collection := select_collection_id e tags (collection_id a)
                            (readlater_collection_id a) rules;
            note := if truthy_opt extended then extended else None;
            excerpt := if truthy_opt extended then extended else None;
            created := if truthy_opt time then time else None;
            lastUpdate := if truthy_opt time then time else None |}
  end.

End Builder.

Section Requests.
Context {W : Type} `{Client W}.

(** The logging calls are not part of the state and are left out. *)
Definition find_existing_raindrop (link : string) : M W (option item * option Z) :=
  try_except
    (response <- client_get "/raindrops/0"
                   [("search", JStr ("link:" ++ link)); ("perpage", JInt 1)] ;;
     raise_for_status response ;;;
     match body response with
     | it :: _ => ret (Some it, Some (item_id it))
     | [] => ret (None, None)
     end)
    HTTPError
    (ret (None, None)).

Definition create_raindrop (p : payload) : M W bool :=
  response <- client_post "/raindrop" p ;;
  try_except
    (raise_for_status response ;;; ret true)
    HTTPStatusError_only
    (ret false).

(** The value of [update_body] when [update_raindrop] tests it at
    [if not update_body]. *)
Definition update_body (p : payload) (existing : item) (merge : bool) : gmap string json :=
  let b : gmap string json := ∅ in
  let b := if merge
           then <["tags" := JList (JStr <$> sorted (set (default [] (item_tags existing))
                                                      ∪ set (tags p)))]> b
           else b in
  let b := match note p with
           | Some n => if truthy_str n then <["note" := JStr n]> b else b
           | None => b
           end in
  let b := match excerpt p with
           | Some x => if truthy_str x then <["excerpt" := JStr x]> b else b
           | None => b
           end in
  if important p then <["important" := JBool true]> b else b.

Definition update_raindrop (raindrop_id : Z) (p : payload) (existing : item) (merge : bool)
  : M W bool :=
  let b := update_body p existing merge in
  if bool_decide (b = ∅) then ret true  (* nothing to change *)
  else
    response <- client_put ("/raindrop/" ++ str_of_Z raindrop_id) b ;;
    try_except
      (raise_for_status response ;;; ret true)
      HTTPStatusError_only
      (ret false).

End Requests.

(** The [stats] dict of [main]. *)
Record stats : Type := {
  processed : Z;
  created_count : Z;
  skipped_existing : Z;
  updated : Z;
  failed : Z;
  duplicate_input : Z
}.

Definition stats0 : stats :=
  {| processed := 0; created_count := 0; skipped_existing := 0; updated := 0;
     failed := 0; duplicate_input := 0 |}.

Definition incr_processed (s : stats) : stats :=
  {| processed := processed s + 1; created_count := created_count s;
     skipped_existing := skipped_existing s; updated := updated s;
     failed := failed s; duplicate_input := duplicate_input s |}.
Definition incr_created (s : stats) : stats :=
  {| processed := processed s; created_count := created_count s + 1;
     skipped_existing := skipped_existing s; updated := updated s;
     failed := failed s; duplicate_input := duplicate_input s |}.
Definition incr_skipped_existing (s : stats) : stats :=
  {| processed := processed s; created_count := created_count s;
     skipped_existing := skipped_existing s + 1; updated := updated s;
     failed := failed s; duplicate_input := duplicate_input s |}.
Definition incr_updated (s : stats) : stats :=
  {| processed := processed s; created_count := created_count s;
     skipped_existing := skipped_existing s; updated := updated s + 1;
     failed := failed s; duplicate_input := duplicate_input s |}.
Definition incr_failed (s : stats) : stats :=
  {| processed := processed s; created_count := created_count s;
     skipped_existing := skipped_existing s; updated := updated s;
     failed := failed s + 1; duplicate_input := duplicate_input s |}.
Definition incr_duplicate_input (s : stats) : stats :=
  {| processed := processed s; created_count := created_count s;
     skipped_existing := skipped_existing s; updated := updated s;
     failed := failed s; duplicate_input := duplicate_input s + 1 |}.

(** The locals of [main] that the loop changes. *)
Record loop_state : Type := {
  st_stats : stats;
  seen_links : gset string
}.

Definition initial_state : loop_state := {| st_stats := stats0; seen_links := ∅ |}.

(** How one iteration ends: [break], or on to the next entry. *)
Inductive flow : Type :=
| Break
| Next (st : loop_state).

(** What lines 358-374 do with one payload. *)
Inductive action : Type :=
| SKIP
| MERGE (raindrop_id : Z) (existing : item)
| CREATE.

Section Main.
Context `{Interpreter} {W : Type} `{Client W}.

(** The test of the [if]/[elif]/[else] at lines 363-370. An item found by
    [find_existing_raindrop] is a non-empty dict, hence true; the id is true
    when it is not zero. *)
Definition reconcile_action (a : args) (existing_item : option item) (existing_id : option Z)
  : action :=
  if bool_decide (is_Some existing_item) && skip_existing a && negb (merge_tags a)
  then SKIP
  else match existing_item, existing_id with
       | Some it, Some id =>
           if merge_tags a && negb (id =? 0) then MERGE id it else CREATE
       | _, _ => CREATE
       end.

(** Lines 358-374: look the link up when asked to, then skip, update or
    create, and count the outcome. *)
Definition reconcile (a : args) (href : string) (p : payload) (s : stats) : M W stats :=
  found <- (if skip_existing a || merge_tags a
            then find_existing_raindrop href
            else ret (None, None)) ;;
  match reconcile_action a (fst found) (snd found) with
  | SKIP => ret (incr_skipped_existing s)
  | MERGE existing_id existing_item =>
      ok <- update_raindrop existing_id p existing_item true ;;
      ret (if ok : bool then incr_updated s else incr_failed s)
  | CREATE =>
      ok <- create_raindrop p ;;
      ret (if ok : bool then incr_created s else incr_failed s)
  end.

(** One iteration of [for entry in pinboard_posts]. *)
Definition main_body (a : args) (rules : list rule) (st : loop_state) (e : entry)
  : M W flow :=
  let limit_reached := match limit a with
                       | Some l => negb (l =? 0) && (l <=? processed (st_stats st))
                       | None => false
                       end in
  if limit_reached then ret Break
  else
    match e !! "href" with
    | None => ret (Next st)
    | Some href =>
        if negb (truthy_str href) then ret (Next st)
        else if bool_decide (href ∈ seen_links st)
        then ret (Next {| st_stats := incr_duplicate_input (st_stats st);
                          seen_links := seen_links st |})
        else
          let seen := {[ href ]} ∪ seen_links st in
          p <- lift (pinboard_to_raindrop_payload e a rules) ;;
          if dry_run a
          then ret (Next {| st_stats := incr_processed (st_stats st); seen_links := seen |})
          else
            s <- reconcile a href p (st_stats st) ;;
            ret (Next {| st_stats := incr_processed s; seen_links := seen |})
    end.

Fixpoint main_loop (a : args) (rules : list rule) (posts : list entry) (st : loop_state)
  : M W loop_state :=
  match posts with
  | [] => ret st
  | e :: rest =>
      f <- main_body a rules st e ;;
      match f with
      | Break => ret st
      | Next st' => main_loop a rules rest st'
      end
  end.

(** [main] from the loading of the collection map on: the map file content
    and the posts are given; a bad map ends the run with [sys.exit(1)]. The
    counters and the set of seen links start afresh in every run. *)
Definition main (a : args) (collection_map : option json) (pinboard_posts : list entry)
  : M W stats :=
  collection_rules <- try_except (lift (load_collection_map collection_map))
                        ValueError_any (raise (SystemExit 1)) ;;
  st <- main_loop a collection_rules pinboard_posts initial_state ;;
  ret (st_stats st).

End Main.

End pinboard_to_raindrop.

(** ** urllib.parse, as far as [urlparse(link).netloc] needs it *)

Module Urllib.
Import Py.

Definition code (c : ascii) : nat := nat_of_ascii c.

Definition is_c0_control_or_space (c : ascii) : bool := Nat.leb (code c) 32.
Definition is_unsafe_byte (c : ascii) : bool :=
  Nat.eqb (code c) 9 || Nat.eqb (code c) 10 || Nat.eqb (code c) 13.
Definition is_ascii_alpha (c : ascii) : bool :=
  (Nat.leb 65 (code c) && Nat.leb (code c) 90)
  || (Nat.leb 97 (code c) && Nat.leb (code c) 122).
Definition is_digit (c : ascii) : bool := Nat.leb 48 (code c) && Nat.leb (code c) 57.
Definition is_scheme_char (c : ascii) : bool :=
  is_ascii_alpha c || is_digit c
  || Ascii.eqb c "+" || Ascii.eqb c "-" || Ascii.eqb c ".".
Definition is_netloc_delim (c : ascii) : bool :=
  Ascii.eqb c "/" || Ascii.eqb c "?" || Ascii.eqb c "#".

Fixpoint lstrip (p : ascii -> bool) (s : string) : string :=
  match s with
  | String c s' => if p c then lstrip p s' else s
  | EmptyString => EmptyString
  end.

Fixpoint remove (p : ascii -> bool) (s : string) : string :=
  match s with
  | String c s' => if p c then remove p s' else String c (remove p s')
  | EmptyString => EmptyString
  end.

Fixpoint forallb_str (p : ascii -> bool) (s : string) : bool :=
  match s with
  | String c s' => p c && forallb_str p s'
  | EmptyString => true
  end.

Definition existsb_str (p : ascii -> bool) (s : string) : bool :=
  negb (forallb_str (fun c => negb (p c)) s).

(** The part of [s] before the first character satisfying [p], and the
    rest from that character on (empty when there is none). *)
Fixpoint break (p : ascii -> bool) (s : string) : string * string :=
  match s with
  | String c s' =>
      if p c then (EmptyString, s)
      else let '(pre, rest) := break p s' in (String c pre, rest)
  | EmptyString => (EmptyString, EmptyString)
  end.

(** [url] with its scheme and colon removed, when it has a scheme. *)
Definition strip_scheme (url : string) : string :=
  match break (Ascii.eqb ":") url with
  | (String c0 _ as scheme, String _ after) =>
      if is_ascii_alpha c0 && forallb_str is_scheme_char scheme then after else url
  | _ => url
  end.

(** [urlparse(link).netloc] *)
Definition urlparse_netloc `{Interpreter} (link : string) : result string :=
  let url := lstrip is_c0_control_or_space link in
  let url := remove is_unsafe_byte url in
  let url := strip_scheme url in
  match url with
  | String "/" (String "/" rest) =>
      let netloc := fst (break is_netloc_delim rest) in
      let lb := existsb_str (Ascii.eqb "[") netloc in
      let rb := existsb_str (Ascii.eqb "]") netloc in
      if (lb && negb rb) || (rb && negb lb) then Raise (ValueError "Invalid IPv6 URL")
      else if (lb && rb) || negb (forallb_str (fun c => Nat.ltb (code c) 128) netloc)
      then match netloc_checks netloc with
           | Ok _ => Ok netloc
           | Raise e => Raise e
           end
      else Ok netloc
  | _ => Ok EmptyString
  end.

End Urllib.

(** ** suggest_collections.py *)

Module suggest_collections.
Import Py Raindrop Urllib.
Export pinboard_to_raindrop (rule, rule_collection_id, rule_tags, rule_name, rule_matches).

Fixpoint guess_collection (tags : list string) (rules : list rule) : option Z :=
  match rules with
  | [] => None
  | r :: rest =>
      if rule_matches tags r then Some (rule_collection_id r)
      else guess_collection tags rest
  end.

(** [host[4:]] when [host.startswith("www.")] *)
Definition strip_www (host : string) : string :=
  match host with
  | String "w" (String "w" (String "w" (String "." rest))) => rest
  | _ => host
  end.

Definition suggest_new_collection `{Interpreter} (tags : list string) (link : string)
  : result (option string) :=
  match tags with
  | t :: _ => Ok (Some t)
  | [] =>
      match urlparse_netloc link with
      | Raise e => Raise e
      | Ok host =>
          let host := strip_www host in
          Ok (if truthy_str host then Some host else None)
      end
  end.

(** What the loop of [main] decides for one fetched item, before any
    request is made for it. *)
Inductive outcome : Type :=
| Guessed (collection_id : Z)
| Unmatched (suggestion : option string).

Definition classify `{Interpreter} (it : item) (rules : list rule) : result outcome :=
  let tags := default [] (item_tags it) in
  match guess_collection tags rules with
  | Some guess => Ok (Guessed guess)
  | None =>
      match suggest_new_collection tags (default "" (item_link it)) with
      | Ok suggestion => Ok (Unmatched suggestion)
      | Raise e => Raise e
      end
  end.

(** The rest of the script: its own copy of the rule loader, the paginated
    fetch, the move request and the loop of [main]. *)
Import Eff.
Local Open Scope eff_scope.

Section Loader.
Context `{Interpreter}.

Fixpoint load_collection_map_loop (idx : nat) (data : list json) (rules : list rule)
  : result (list rule) :=
  match data with
  | [] => Ok rules
  | JObj r :: rest =>
      match r !! "collection_id", r !! "tags" with
      | Some cid, Some tags =>
          match str_list tags with
          | None =>
              Raise (ValueError ("rule " ++ str_of_nat idx ++ " tags must be a list of strings"))
          | Some ts =>
              match int cid with
              | Raise e => Raise e
              | Ok n =>
                  load_collection_map_loop (S idx) rest
                    (rules ++ [ {| rule_collection_id := n;
                                   rule_tags := ts;
                                   rule_name := default JNull (r !! "name") |} ])%list
              end
          end
      | _, _ =>
          Raise (ValueError ("rule " ++ str_of_nat idx ++ " must include collection_id and tags"))
      end
  | _ :: _ => Raise (ValueError ("rule " ++ str_of_nat idx ++ " must be an object"))
  end.

(** [data] is the parsed content of the map file, which this script
    requires. *)
Definition load_collection_map (data : json) : result (list rule) :=
  match data with
  | JList l => load_collection_map_loop 0 l []
  | _ => Raise (ValueError "collection map must be a JSON list")
  end.

End Loader.

(** The options of this script's [parse_args] that the modelled code
    reads. *)
Record args : Type := {
  per_page : Z;
  max_pages : option Z;
  apply : bool
}.

(** The [stats] dict of this script's [main]. *)
Record stats : Type := {
  total : Z;
  guessed : Z;
  moved : Z;
  unmatched : Z
}.

Definition stats0 : stats := {| total := 0; guessed := 0; moved := 0; unmatched := 0 |}.

Definition incr_total (s : stats) : stats :=
  {| total := total s + 1; guessed := guessed s; moved := moved s; unmatched := unmatched s |}.
Definition incr_guessed (s : stats) : stats :=
  {| total := total s; guessed := guessed s + 1; moved := moved s; unmatched := unmatched s |}.
Definition incr_moved (s : stats) : stats :=
  {| total := total s; guessed := guessed s; moved := moved s + 1; unmatched := unmatched s |}.
Definition incr_unmatched (s : stats) : stats :=
  {| total := total s; guessed := guessed s; moved := moved s; unmatched := unmatched s + 1 |}.

Section Requests.
Context {W : Type} `{Client W}.

(** The [while True] loop of [fetch_unsorted], from the page [page] on with
    [all_items] collected so far. The loop has no bound of its own; [fuel]
    bounds the number of iterations of the model, and [None] is returned
    when it runs out. *)
Fixpoint fetch_unsorted_loop (fuel : nat) (per_page : Z) (max_pages : option Z)
    (page : Z) (all_items : list item) : M W (option (list item)) :=
  match fuel with
  | O => ret None
  | S fuel' =>
      resp <- client_get "/raindrops/0" [("perpage", JInt per_page); ("page", JInt page)] ;;
      raise_for_status resp ;;;
      match body resp with
      | [] => ret (Some all_items)
      | _ :: _ =>
          let all_items := (all_items ++ body resp)%list in
          let page := page + 1 in
          if match max_pages with Some m => m <=? page | None => false end
          then ret (Some all_items)
          else fetch_unsorted_loop fuel' per_page max_pages page all_items
      end
  end.

Definition fetch_unsorted (fuel : nat) (per_page : Z) (max_pages : option Z)
  : M W (option (list item)) :=
  fetch_unsorted_loop fuel per_page max_pages 0 [].

Definition move_raindrop (item_id collection_id : Z) : M W bool :=
  resp <- client_put ("/raindrop/" ++ str_of_Z item_id)
            {[ "collection" := JObj {[ "$id" := JInt collection_id ]} ]} ;;
  try_except
    (raise_for_status resp ;;; ret true)
    HTTPStatusError_only
    (ret false).

Context `{Interpreter}.

(** One iteration of [for item in items]. *)
Definition main_item (a : args) (rules : list rule) (s : stats) (it : item) : M W stats :=
  let s := incr_total s in
  let tags := default [] (item_tags it) in
  match guess_collection tags rules with
  | Some guess =>
      let s := incr_guessed s in
      if apply a
      then ok <- move_raindrop (item_id it) guess ;;
           ret (if ok : bool then incr_moved s else s)
      else ret s
  | None =>
      let s := incr_unmatched s in
      suggestion <- lift (suggest_new_collection tags (default "" (item_link it))) ;;
      ret s
  end.

Fixpoint main_items (a : args) (rules : list rule) (items : list item) (s : stats)
  : M W stats :=
  match items with
  | [] => ret s
  | it :: rest => s' <- main_item a rules s it ;; main_items a rules rest s'
  end.

(** [main] from the loading of the collection map on: a bad map or a
    missing token ends the run with [sys.exit(1)] before any request. The
    result is [None] when the fetch ran out of fuel. *)
Definition main (fuel : nat) (a : args) (collection_map : json)
    (raindrop_token : option string) : M W (option stats) :=
  rules <- try_except (lift (load_collection_map collection_map))
             ValueError_any (raise (SystemExit 1)) ;;
  if negb (truthy_opt raindrop_token) then raise (SystemExit 1)
  else
    fetched <- fetch_unsorted fuel (per_page a) (max_pages a) ;;
    match fetched with
    | None => ret None
    | Some items => s <- main_items a rules items stats0 ;; ret (Some s)
    end.

End Requests.

End suggest_collections.

(** ** Vocabulary of the statements *)

Module Vocabulary.
Import Py Eff Raindrop pinboard_to_raindrop.
Local Open Scope list_scope.

(** The rule's tag list and the tag set share a tag. *)
Definition intersects (tags : list string) (r : rule) : Prop :=
  exists t, t ∈ rule_tags r /\ t ∈ tags.

(** The entry [e] of a map file yields the rule [r]: an object with a
    collection id that [int] accepts and a list of strings as tags. *)
Definition loads_to `{Interpreter} (e : json) (r : rule) : Prop :=
  exists o cid tags ts n,
    e = JObj o /\ o !! "collection_id" = Some cid /\ o !! "tags" = Some tags
    /\ str_list tags = Some ts /\ int cid = Ok n
    /\ r = {| rule_collection_id := n; rule_tags := ts;
              rule_name := default JNull (o !! "name") |}.

(** An entry is an object with a collection id and a list of strings as
    tags; with [allow_empty] off the list must also have a tag. *)
Definition entry_ok (allow_empty : bool) (e : json) : bool :=
  match e with
  | JObj o =>
      match o !! "collection_id", o !! "tags" with
      | Some _, Some tags =>
          match str_list tags with
          | Some ts => allow_empty || negb (bool_decide (ts = []))
          | None => false
          end
      | _, _ => false
      end
  | _ => false
  end.

(** Well-formed as the specification words it: a list of objects, each with
    a destination id and a non-empty list of string tags. *)
Definition well_formed_as_specified (data : json) : bool :=
  match data with JList l => forallb (entry_ok false) l | _ => false end.

(** Well-formed as the loader checks it: the tag list may be empty. *)
Definition well_formed (data : json) : bool :=
  match data with JList l => forallb (entry_ok true) l | _ => false end.

(** Every collection id present in the file is a JSON integer. *)
Definition integer_id (e : json) : bool :=
  match e with
  | JObj o => match o !! "collection_id" with
              | Some (JInt _) | None => true
              | Some _ => false
              end
  | _ => true
  end.

Definition integer_ids (data : json) : bool :=
  match data with JList l => forallb integer_id l | _ => true end.

(** The search request of [find_existing_raindrop]. *)
Definition search_request {W : Type} `{Client W} (link : string)
  : M W (response (list item)) :=
  client_get "/raindrops/0" [("search", JStr ("link:" ++ link)%string); ("perpage", JInt 1)].

(** [href = entry.get("href")] is true: the entry takes part in the run. *)
Definition has_href (e : entry) : bool := truthy_opt (e !! "href").

(** The rule has a tag to match with. *)
Definition has_tags (r : rule) : bool :=
  match rule_tags r with [] => false | _ :: _ => true end.

(** The page [page] of [l], at [per_page] items a page. *)
Definition page_slice (l : list item) (per_page page : Z) : list item :=
  take (Z.to_nat per_page) (drop (Z.to_nat (page * per_page)) l).

(** The client answers every page request with that page of [l], in every
    state that satisfies [inv]. *)
Definition serves_pages {W : Type} `{Client W} (inv : W -> Prop) (l : list item)
    (per_page : Z) : Prop :=
  forall (w : W) (page : Z),
    inv w -> 0 <= page ->
    exists w', inv w'
      /\ client_get "/raindrops/0" [("perpage", JInt per_page); ("page", JInt page)] w
         = (w', Ok {| status_ok := true; body := page_slice l per_page page |}).

(** The test [args.limit and stats["processed"] >= args.limit]. *)
Definition limit_reached (a : args) (s : stats) : bool :=
  match limit a with
  | Some l => negb (l =? 0) && (l <=? processed s)
  | None => false
  end.

(** The same options without a limit. *)
Definition without_limit (a : args) : args :=
  {| collection_id := collection_id a;
     readlater_collection_id := readlater_collection_id a;
     toread_tag := toread_tag a; lowercase_tags := lowercase_tags a;
     skip_existing := skip_existing a; merge_tags := merge_tags a;
     limit := None; dry_run := dry_run a |}.

(** The records that reached the reconciliation, by outcome. *)
Definition outcomes (s : stats) : Z :=
  created_count s + updated s + skipped_existing s + failed s.

(** No counter of [s'] is below its value in [s]. *)
Definition stats_le (s s' : stats) : Prop :=
  processed s <= processed s' /\ created_count s <= created_count s'
  /\ skipped_existing s <= skipped_existing s' /\ updated s <= updated s'
  /\ failed s <= failed s' /\ duplicate_input s <= duplicate_input s'.

(** A link of the batch: the entry's ["href"] when it is not empty. *)
Definition link_of (e : entry) : option string :=
  match e !! "href" with
  | Some href => if truthy_str href then Some href else None
  | None => None
  end.

(** A character of a network location that needs no care: printable ASCII
    other than the delimiters and the brackets. *)
Definition plain_netloc_char (c : ascii) : bool :=
  Nat.ltb 32 (Urllib.code c) && Nat.ltb (Urllib.code c) 128
  && negb (Urllib.is_netloc_delim c)
  && negb (Ascii.eqb "[" c) && negb (Ascii.eqb "]" c).

(** The host inside a network location, in the specification's sense of
    "URL host": what follows the user information, up to the port. *)
Fixpoint after_userinfo (netloc : string) : string :=
  match netloc with
  | EmptyString => EmptyString
  | String c rest =>
      if Urllib.existsb_str (Ascii.eqb "@") rest then after_userinfo rest
      else if Ascii.eqb c "@" then rest else netloc
  end.

Definition host_of_netloc (netloc : string) : string :=
  fst (Urllib.break (Ascii.eqb ":") (after_userinfo netloc)).

(** The suggestion as the specification words it: the first tag, else the
    URL host without a leading ["www."], else none. *)
Definition suggestion_as_specified `{Interpreter} (tags : list string) (link : string)
  : option string :=
  match tags with
  | t :: _ => Some t
  | [] =>
      match Urllib.urlparse_netloc link with
      | Ok netloc =>
          let host := suggest_collections.strip_www (host_of_netloc netloc) in
          if truthy_str host then Some host else None
      | Raise _ => None
      end
  end.

End Vocabulary.

(** ** A test double for the client

    It answers every search with the items it holds, can be cut off (every
    request raises) or made to refuse (every answer has an error status),
    and records what it was sent. *)

Module Mock.
Import Py Eff Raindrop.

Inductive request : Type :=
| GET (path : string) (params : list (string * json))
| POST (path : string) (p : payload)
| PUT (path : string) (b : gmap string json).

Record world : Type := {
  store : list item;
  reachable : bool;
  accepts : bool;
  sent : list request
}.

Definition send {A : Type} (rq : request) (answer : world -> A) : M world (response A) :=
  fun w =>
    let w' := {| store := store w; reachable := reachable w; accepts := accepts w;
                 sent := (sent w ++ [rq])%list |} in
    if reachable w
    then (w', Ok {| status_ok := accepts w; body := answer w |})
    else (w', Raise RequestError).

Definition client : Client world :=
  {| client_get := fun path params => send (GET path params) store;
     client_post := fun path p => send (POST path p) (fun _ => tt);
     client_put := fun path b => send (PUT path b) (fun _ => tt) |}.

Definition online (items : list item) : world :=
  {| store := items; reachable := true; accepts := true; sent := [] |}.

Definition offline (items : list item) : world :=
  {| store := items; reachable := false; accepts := true; sent := [] |}.

(** The same double with paging: a request that names a page gets that
    slice of the store. *)
Definition int_param (k : string) (params : list (string * json)) : option Z :=
  match List.find (fun kv => String.eqb (fst kv) k) params with
  | Some (_, JInt n) => Some n
  | _ => None
  end.

Definition page_of (params : list (string * json)) (w : world) : list item :=
  match int_param "perpage" params, int_param "page" params with
  | Some pp, Some pg => take (Z.to_nat pp) (drop (Z.to_nat (pg * pp)) (store w))
  | _, _ => store w
  end.

Definition paged : Client world :=
  {| client_get := fun path params => send (GET path params) (page_of params);
     client_post := fun path p => send (POST path p) (fun _ => tt);
     client_put := fun path b => send (PUT path b) (fun _ => tt) |}.

End Mock.

(** ** Sample data for running the model *)

Module Sample.
Import Py Raindrop pinboard_to_raindrop.
Local Open Scope list_scope.

Definition url : string := "https://example.com".

Definition post : entry :=
  {[ "href" := url; "description" := "Example"; "tags" := "a"; "toread" := "no" ]}.

Definition options (skip merge : bool) : args :=
  {| collection_id := 0; readlater_collection_id := None; toread_tag := "toread";
     lowercase_tags := false; skip_existing := skip; merge_tags := merge;
     limit := None; dry_run := false |}.

Definition bookmark : payload :=
  {| link := url; title := "Example"; tags := ["a"]; important := false;
     collection := 0; note := None; excerpt := None; created := None;
     lastUpdate := None |}.

Definition stored (id : Z) : item :=
  {| item_id := id; item_tags := Some ["a"; "b"]; item_link := Some url |}.

(** The entries, rules and options of [smoke_test.py]. *)
Definition smoke_options (readlater : Z) (tag : string) : args :=
  {| collection_id := 0; readlater_collection_id := Some readlater; toread_tag := tag;
     lowercase_tags := true; skip_existing := true; merge_tags := false;
     limit := None; dry_run := false |}.

Definition work_post : entry :=
  {[ "href" := "https://example.com"; "description" := "Example"; "extended" := "Notes";
     "tags" := "Work project-x"; "toread" := "no"; "time" := "2021-01-01T00:00:00Z" ]}.

Definition work_rule : rule :=
  {| rule_collection_id := 555; rule_tags := ["work"; "project-x"]; rule_name := JStr "Work" |}.

Definition later_post : entry :=
  {[ "href" := "https://later.example"; "description" := ""; "tags" := "Read";
     "toread" := "yes" ]}.

Definition read_rule : rule :=
  {| rule_collection_id := 999; rule_tags := ["read"]; rule_name := JStr "Read" |}.

Definition star_post : entry :=
  {[ "href" := "https://star.example"; "description" := ""; "tags" := "starred dev";
     "toread" := "no" ]}.

Definition search : Mock.request :=
  Mock.GET "/raindrops/0" [("search", JStr "link:https://example.com"); ("perpage", JInt 1)].

End Sample.

(** * Properties *)

(** ** Built-ins *)

Module PyFacts.
Import Py.

Lemma str_compare_refl (a : string) : String_as_OT.compare a a = Eq.
Proof.
  destruct (String_as_OT.compare_spec a a) as [_|Hlt|Hlt]; [reflexivity| |];
    exfalso; exact (irreflexivity String_as_OT.lt a Hlt).
Qed.

Lemma str_compare_gt (a b : string) :
  String_as_OT.compare a b = Gt <-> String_as_OT.compare b a = Lt.
Proof.
  destruct (String_as_OT.compare_spec a b) as [->|Hab|Hba]; split; intros Hc;
    try discriminate; try reflexivity.
  - rewrite str_compare_refl in Hc. discriminate.
  - exfalso. apply (irreflexivity String_as_OT.lt a).
    exact (@StrictOrder_Transitive _ _ String_as_OT.lt_strorder a b a Hab Hc).
  - exact Hba.
Qed.

#[global] Instance str_le_total : Total str_le.
Proof.
  intros a b. unfold str_le.
  destruct (String_as_OT.compare a b) eqn:Hab; [left|left|right]; try congruence.
  apply str_compare_gt in Hab. congruence.
Qed.

#[global] Instance str_le_trans : Transitive str_le.
Proof.
  intros a b c Hab Hbc. unfold str_le in *. intros Hac.
  apply str_compare_gt in Hac.
  destruct (String_as_OT.compare_spec a b) as [->|Hlt|_]; [| |congruence].
  - apply Hbc, str_compare_gt, Hac.
  - apply Hbc, str_compare_gt.
    exact (@StrictOrder_Transitive _ _ String_as_OT.lt_strorder c a b Hac Hlt).
Qed.

#[global] Instance str_le_antisym : AntiSymm (=) str_le.
Proof.
  intros a b Hab Hba. unfold str_le in *.
  destruct (String_as_OT.compare_spec a b) as [Heq|Hlt|_]; [exact Heq| |congruence].
  exfalso. apply Hba, str_compare_gt, Hlt.
Qed.

Lemma str_lt_le (a b : string) : str_lt a b <-> str_le a b /\ a <> b.
Proof.
  unfold str_lt, str_le. split.
  - intros Hlt. split; [congruence|]. intros ->. rewrite str_compare_refl in Hlt. discriminate.
  - intros [Hle Hne]. destruct (String_as_OT.compare_spec a b); congruence.
Qed.

(** [sorted] keeps exactly the members of the set. *)
Lemma elem_of_sorted (s : gset string) (x : string) : x ∈ sorted s <-> x ∈ s.
Proof. unfold sorted. rewrite merge_sort_Permutation. apply elem_of_elements. Qed.

Lemma NoDup_sorted (s : gset string) : NoDup (sorted s).
Proof. unfold sorted. rewrite merge_sort_Permutation. apply NoDup_elements. Qed.

Lemma StronglySorted_le_sorted (s : gset string) : StronglySorted str_le (sorted s).
Proof. apply StronglySorted_merge_sort; apply _. Qed.

Lemma StronglySorted_strict (l : list string) :
  StronglySorted str_le l -> NoDup l -> StronglySorted str_lt l.
Proof.
  induction 1 as [|x l Hs IH Hall]; intros Hnd; constructor.
  - apply IH. now inversion Hnd.
  - inversion Hnd as [|? ? Hnotin _]; subst.
    rewrite Forall_forall in *. intros y Hy. apply str_lt_le. split; [now apply Hall|].
    intros ->. now apply Hnotin.
Qed.

(** The result of [sorted] is strictly increasing: sorted and free of
    duplicates at once. *)
Lemma sorted_strict (s : gset string) : StronglySorted str_lt (sorted s).
Proof. apply StronglySorted_strict; [apply StronglySorted_le_sorted | apply NoDup_sorted]. Qed.

(** There is one strictly increasing list per set, so [sorted] does not
    depend on the order in which the set is enumerated. *)
Lemma sorted_unique (s : gset string) (l : list string) :
  StronglySorted str_le l -> NoDup l -> (forall x, x ∈ l <-> x ∈ s) -> l = sorted s.
Proof.
  intros Hs Hnd Hmem. apply (StronglySorted_unique str_le); [exact Hs| |].
  - apply StronglySorted_le_sorted.
  - apply NoDup_Permutation; [exact Hnd | apply NoDup_sorted |].
    intros x. now rewrite Hmem, elem_of_sorted.
Qed.

Lemma elem_of_set (l : list string) (x : string) : x ∈ set l <-> x ∈ l.
Proof. unfold set. apply elem_of_list_to_set. Qed.

Lemma contains_In (x : string) (l : list string) : contains x l = true <-> In x l.
Proof.
  unfold contains. rewrite existsb_exists. split.
  - intros (y & Hy & Heq). apply String.eqb_eq in Heq. now subst.
  - intros Hin. exists x. split; [exact Hin | apply String.eqb_refl].
Qed.

(** [split] cuts at every separator and nowhere else: joining the pieces
    gives the string back, and no piece holds a separator. *)

Lemma split_not_nil (sep : ascii) (s : string) : split sep s <> [].
Proof.
  induction s as [|c s IH]; simpl; [discriminate|].
  destruct (Ascii.eqb c sep); [discriminate|].
  destruct (split sep s); [contradiction | discriminate].
Qed.

Lemma join_split (sep : ascii) (s : string) : join sep (split sep s) = s.
Proof.
  induction s as [|c s IH]; simpl; [reflexivity|].
  destruct (Ascii.eqb c sep) eqn:Hc.
  - apply Ascii.eqb_eq in Hc. subst c.
    pose proof (split_not_nil sep s) as Hne.
    destruct (split sep s) as [|t r]; [contradiction|].
    simpl. simpl in IH. now rewrite IH.
  - pose proof (split_not_nil sep s) as Hne.
    destruct (split sep s) as [|t r]; [contradiction|].
    rewrite <- IH. destruct r as [|t' r]; reflexivity.
Qed.

Lemma split_free (sep : ascii) (s : string) : Forall (free_of sep) (split sep s).
Proof.
  induction s as [|c s IH]; simpl.
  - constructor; [|constructor]. intros [].
  - destruct (Ascii.eqb c sep) eqn:Hc.
    + constructor; [intros [] | exact IH].
    + destruct (split sep s) as [|t r].
      * constructor; [|constructor]. intros [Heq|[]]. subst. now rewrite Ascii.eqb_refl in Hc.
      * inversion IH as [|? ? Ht Hr]; subst. constructor; [|exact Hr].
        intros [Heq|Hin]; [subst; now rewrite Ascii.eqb_refl in Hc | now apply Ht].
Qed.

End PyFacts.

Import Py Eff Raindrop pinboard_to_raindrop Vocabulary PyFacts.
Open Scope list_scope.

(** ** Tag normaliser *)

Section Normalizer.
Context `{Interpreter}.

Lemma normalize_tags_unfold (tag_str : string) (lowercase toread : bool) (toread_tag : string) :
  normalize_tags tag_str lowercase toread toread_tag
  = sorted (set ((if lowercase then map lower else id)
                   (List.filter truthy_str (split " "%char tag_str)
                    ++ (if toread && truthy_str toread_tag then [toread_tag] else [])))).
Proof.
  unfold normalize_tags.
  destruct (toread && truthy_str toread_tag), lowercase; simpl;
    rewrite ?app_nil_r; reflexivity.
Qed.

Lemma truthy_str_true (s : string) : truthy_str s = true <-> s <> "".
Proof. destruct s; simpl; split; intros; congruence. Qed.

Lemma elem_of_normalize_tags (tag_str : string) (lowercase toread : bool)
    (toread_tag t : string) :
  t ∈ normalize_tags tag_str lowercase toread toread_tag
  <-> exists u,
        ((u ∈ split " "%char tag_str /\ u <> "")
         \/ (toread = true /\ toread_tag <> "" /\ u = toread_tag))
        /\ t = (if lowercase then lower u else u).
Proof.
  rewrite normalize_tags_unfold, elem_of_sorted, elem_of_set.
  set (toks := List.filter truthy_str (split " "%char tag_str)
               ++ (if toread && truthy_str toread_tag then [toread_tag] else [])).
  assert (Htoks : forall u, In u toks <->
            (u ∈ split " "%char tag_str /\ u <> "")
            \/ (toread = true /\ toread_tag <> "" /\ u = toread_tag)).
  { intros u. unfold toks. rewrite in_app_iff, filter_In, truthy_str_true, <- list_elem_of_In.
    destruct toread; simpl.
    - destruct (truthy_str toread_tag) eqn:Ht; simpl.
      + apply truthy_str_true in Ht. intuition (subst; auto).
      + assert (toread_tag = "") by (destruct toread_tag; [reflexivity | discriminate]).
        intuition congruence.
    - intuition congruence. }
  rewrite list_elem_of_In. destruct lowercase.
  - rewrite in_map_iff. split.
    + intros (u & <- & Hu). exists u. split; [now apply Htoks | reflexivity].
    + intros (u & Hu & ->). exists u. split; [reflexivity | now apply Htoks].
  - unfold id. split.
    + intros Hin. exists t. split; [now apply Htoks | reflexivity].
    + intros (u & Hu & ->). now apply Htoks.
Qed.

(** C5. [normalize_tags] splits the raw string at every single space (the
    pieces joined by spaces give the string back, and no piece holds a
    space), drops the empty pieces, adds the inject tag when the inject
    flag is set and the tag is not empty, lowercases every token when asked
    to, and returns the distinct tokens in increasing order; that list is
    the only one with these members that is sorted and free of duplicates.
    It is a total function. ["a b a"] gives [["a"; "b"]], the empty string
    gives the empty list, or the inject tag alone. *)
Theorem normalize_tags_spec (tag_str : string) (lowercase toread : bool) (toread_tag : string) :
  let out := normalize_tags tag_str lowercase toread toread_tag in
  (join " "%char (split " "%char tag_str) = tag_str
   /\ Forall (free_of " "%char) (split " "%char tag_str))
  /\ (forall t, t ∈ out <->
        exists u, ((u ∈ split " "%char tag_str /\ u <> "")
                   \/ (toread = true /\ toread_tag <> "" /\ u = toread_tag))
                  /\ t = (if lowercase then lower u else u))
  /\ NoDup out
  /\ StronglySorted str_lt out
  /\ (forall l, StronglySorted str_le l -> NoDup l ->
                (forall t, t ∈ l <-> t ∈ out) -> l = out)
  /\ normalize_tags "a b a" false false toread_tag = ["a"; "b"]
  /\ normalize_tags "" lowercase false toread_tag = []
  /\ normalize_tags "" false true "toread" = ["toread"]
  /\ normalize_tags "" false true "" = [].
Proof.
  cbv zeta. split; [split; [apply join_split | apply split_free]|].
  split; [intros t; apply elem_of_normalize_tags|].
  split; [apply NoDup_sorted|].
  split; [apply sorted_strict|].
  split.
  { intros l Hs Hnd Hmem. rewrite normalize_tags_unfold in *.
    apply sorted_unique; [exact Hs | exact Hnd |].
    intros x. rewrite Hmem. apply elem_of_sorted. }
  split; [vm_compute; reflexivity|].
  split; [destruct lowercase; vm_compute; reflexivity|].
  split; vm_compute; reflexivity.
Qed.

End Normalizer.

(** ** Rule matcher *)

Section Matcher.

Lemma rule_matches_intersects (tags : list string) (r : rule) :
  rule_matches tags r = true <-> intersects tags r.
Proof.
  unfold rule_matches, intersects. rewrite existsb_exists.
  split; intros (t & Ht1 & Ht2); exists t.
  - apply contains_In in Ht2. now rewrite !list_elem_of_In.
  - rewrite !list_elem_of_In in *. split; [exact Ht1 | now apply contains_In].
Qed.

Lemma rule_matches_not_intersects (tags : list string) (r : rule) :
  rule_matches tags r = false <-> ~ intersects tags r.
Proof.
  rewrite <- rule_matches_intersects. destruct (rule_matches tags r); split; congruence.
Qed.

Lemma guess_first_match (tags : list string) (pre : list rule) (r : rule) (post : list rule)
    (default_id : Z) :
  Forall (fun r' => ~ intersects tags r') pre -> intersects tags r ->
  guess_collection_from_tags tags (pre ++ r :: post) default_id = rule_collection_id r.
Proof.
  intros Hpre Hr. induction Hpre as [|r' pre Hr' _ IH]; simpl.
  - apply rule_matches_intersects in Hr. now rewrite Hr.
  - apply rule_matches_not_intersects in Hr'. now rewrite Hr'.
Qed.

Lemma guess_no_match (tags : list string) (rules : list rule) (default_id : Z) :
  Forall (fun r => ~ intersects tags r) rules ->
  guess_collection_from_tags tags rules default_id = default_id.
Proof.
  induction 1 as [|r rules Hr _ IH]; simpl; [reflexivity|].
  apply rule_matches_not_intersects in Hr. now rewrite Hr.
Qed.

(** Every rule list either has a first matching rule or none at all. *)
Lemma first_match_or_none (tags : list string) (rules : list rule) :
  (exists pre r post, rules = pre ++ r :: post
                      /\ Forall (fun r' => ~ intersects tags r') pre /\ intersects tags r)
  \/ Forall (fun r => ~ intersects tags r) rules.
Proof.
  induction rules as [|r rules IH]; [right; constructor|].
  destruct (rule_matches tags r) eqn:Hr.
  - left. exists [], r, rules. split; [reflexivity|]. split; [constructor|].
    now apply rule_matches_intersects.
  - apply rule_matches_not_intersects in Hr.
    destruct IH as [(pre & r0 & post & -> & Hpre & Hr0)|Hnone].
    + left. exists (r :: pre), r0, post. split; [reflexivity|]. split; [now constructor | exact Hr0].
    + right. now constructor.
Qed.

(** C3. [guess_collection_from_tags] returns the collection id of the first
    rule, in list order, whose tag list shares a tag with the tag set, and
    the default id when no rule does; one of the two always applies. A
    matching rule at the head wins over whatever follows it, however many
    tags a later rule shares. Rule [555 <- ["work"]]: tags [work, x] give
    555, tags [y] with default 0 give 0. *)
Theorem guess_collection_from_tags_first_match
    (tags : list string) (rules : list rule) (default_id : Z) :
  (forall pre r post,
      rules = pre ++ r :: post ->
      Forall (fun r' => ~ intersects tags r') pre ->
      intersects tags r ->
      guess_collection_from_tags tags rules default_id = rule_collection_id r)
  /\ (Forall (fun r => ~ intersects tags r) rules ->
      guess_collection_from_tags tags rules default_id = default_id)
  /\ ((exists pre r post, rules = pre ++ r :: post
                          /\ Forall (fun r' => ~ intersects tags r') pre
                          /\ intersects tags r)
      \/ Forall (fun r => ~ intersects tags r) rules)
  /\ (forall r1 r2, intersects tags r1 -> intersects tags r2 ->
        guess_collection_from_tags tags (r1 :: r2 :: rules) default_id
        = rule_collection_id r1)
  /\ (forall nm,
        let r := {| rule_collection_id := 555; rule_tags := ["work"]; rule_name := nm |} in
        guess_collection_from_tags ["work"; "x"] [r] default_id = 555
        /\ guess_collection_from_tags ["y"] [r] 0 = 0).
Proof.
  split; [intros pre r post -> Hpre Hr; now apply guess_first_match|].
  split; [apply guess_no_match|].
  split; [apply first_match_or_none|].
  split; [|intros nm; split; reflexivity].
  intros r1 r2 Hr1 _. now apply (guess_first_match tags [] r1 (r2 :: rules)).
Qed.

(** C10. A rule matches exactly when one of its tag strings is, character
    for character, a member of the tag list; a result other than the
    default comes from a rule holding such a tag, and without one the
    default is returned. With lowercasing off the tag [Work] stays as it is,
    is not matched by the rule tag [work], and the record gets the default
    collection. *)
Theorem rule_matching_is_exact `{Interpreter}
    (tags : list string) (rules : list rule) (default_id : Z) :
  (forall r, rule_matches tags r = true <-> exists t, In t (rule_tags r) /\ In t tags)
  /\ (guess_collection_from_tags tags rules default_id <> default_id ->
      exists r t, In r rules /\ In t (rule_tags r) /\ In t tags
                  /\ guess_collection_from_tags tags rules default_id = rule_collection_id r)
  /\ ((forall r t, In r rules -> In t (rule_tags r) -> ~ In t tags) ->
      guess_collection_from_tags tags rules default_id = default_id)
  /\ (forall nm toread toread_tag,
        let r := {| rule_collection_id := 555; rule_tags := ["work"]; rule_name := nm |} in
        let record_tags := normalize_tags "Work" false false toread_tag in
        record_tags = ["Work"]
        /\ "Work" <> "work"
        /\ rule_matches record_tags r = false
        /\ guess_collection_from_tags record_tags [r] default_id = default_id
        /\ select_collection_id {[ "tags" := "Work"; "toread" := toread ]} record_tags
             default_id None [r] = default_id).
Proof.
  assert (Hm : forall r, rule_matches tags r = true
                         <-> exists t, In t (rule_tags r) /\ In t tags).
  { intros r. rewrite rule_matches_intersects. unfold intersects.
    split; intros (t & H1 & H2); exists t; rewrite !list_elem_of_In in *; auto. }
  split; [exact Hm|]. split; [|split].
  - induction rules as [|r rules IH]; simpl; [congruence|].
    destruct (rule_matches tags r) eqn:Hr.
    + intros _. apply Hm in Hr as (t & H1 & H2). exists r, t. auto.
    + intros Hne. destruct (IH Hne) as (r' & t & Hin & H1 & H2 & Heq).
      exists r', t. auto.
  - intros Hnone. apply guess_no_match. apply Forall_forall.
    intros r Hr (t & H1 & H2). rewrite !list_elem_of_In in *. now apply (Hnone r t).
  - intros nm toread toread_tag. cbv zeta.
    assert (Hn : normalize_tags "Work" false false toread_tag = ["Work"])
      by (vm_compute; reflexivity).
    rewrite Hn. repeat split; try reflexivity. discriminate.
Qed.

End Matcher.

(** ** Destination of a record *)

Section Destination.

(** C4. With a read-later collection configured and the entry's [toread]
    equal to ["yes"], [select_collection_id] returns the configured id,
    whatever the rules say; in every other case it returns what the rule
    matcher returns for the default id. A read-later entry with override 42
    and a rule that matches its tags for collection 999 goes to 42. *)
Theorem select_collection_id_override
    (e : entry) (tags : list string) (default_id : Z) (readlater_id : option Z)
    (rules : list rule) :
  (forall rid, readlater_id = Some rid -> e !! "toread" = Some "yes" ->
     select_collection_id e tags default_id readlater_id rules = rid)
  /\ (readlater_id = None \/ e !! "toread" <> Some "yes" ->
      select_collection_id e tags default_id readlater_id rules
      = guess_collection_from_tags tags rules default_id)
  /\ (let later : entry := {[ "href" := "https://later.example"; "tags" := "read";
                              "toread" := "yes" ]} in
      let r := {| rule_collection_id := 999; rule_tags := ["read"]; rule_name := JStr "Read" |} in
      guess_collection_from_tags ["later"; "read"] [r] default_id = 999
      /\ select_collection_id later ["later"; "read"] default_id (Some 42) [r] = 42).
Proof.
  split; [|split].
  - intros rid -> Hyes. unfold select_collection_id. now rewrite bool_decide_eq_true_2.
  - intros [-> | Hno]; unfold select_collection_id; [reflexivity|].
    destruct readlater_id; [|reflexivity]. now rewrite bool_decide_eq_false_2.
  - split; reflexivity.
Qed.

End Destination.

(** The three cases of [smoke_test.py], run on the model. *)
Example test_tag_normalization_and_collection_match :
  @pinboard_to_raindrop_payload ascii_interpreter Sample.work_post
    (Sample.smoke_options 123 "toread") [Sample.work_rule]
  = Ok {| link := "https://example.com"; title := "Example";
          tags := ["project-x"; "work"]; important := false; collection := 555;
          note := Some "Notes"; excerpt := Some "Notes";
          created := Some "2021-01-01T00:00:00Z";
          lastUpdate := Some "2021-01-01T00:00:00Z" |}.
Proof. vm_compute. reflexivity. Qed.

Example test_toread_overrides_collection_and_adds_tag :
  @pinboard_to_raindrop_payload ascii_interpreter Sample.later_post
    (Sample.smoke_options 42 "later") [Sample.read_rule]
  = Ok {| link := "https://later.example"; title := "https://later.example";
          tags := ["later"; "read"]; important := false; collection := 42;
          note := None; excerpt := None; created := None; lastUpdate := None |}.
Proof. vm_compute. reflexivity. Qed.

Example test_starred_flag_sets_important :
  @normalize_tags ascii_interpreter "starred dev" true false "toread" = ["dev"; "starred"]
  /\ important <$> option_of (@pinboard_to_raindrop_payload ascii_interpreter Sample.star_post
                                (Sample.smoke_options 123 "toread") [])
     = Some true.
Proof. split; vm_compute; reflexivity. Qed.

(** ** Rule loader *)

Section RuleLoader.
Context `{Interpreter}.

Lemma load_loop_integer_ids (l : list json) :
  forallb integer_id l = true ->
  forall (idx : nat) (acc : list rule),
    if forallb (entry_ok true) l
    then exists rs, load_collection_map_loop idx l acc = Ok (acc ++ rs) /\ Forall2 loads_to l rs
    else exists msg, load_collection_map_loop idx l acc = Raise (ValueError msg).
Proof.
  induction l as [|e l IH]; intros Hids idx acc.
  - simpl. exists []. split; [now rewrite app_nil_r | constructor].
  - simpl in Hids. apply andb_true_iff in Hids as [He Hl].
    specialize (IH Hl). simpl.
    destruct e as [| | | | |?|o]; simpl; eauto.
    simpl in He.
    destruct (o !! "collection_id") as [cid|] eqn:Hcid; simpl; eauto.
    destruct (o !! "tags") as [tags|] eqn:Htags; simpl; eauto.
    destruct (str_list tags) as [ts|] eqn:Hts; simpl; eauto.
    destruct cid as [| |n| | | |]; try discriminate. simpl.
    specialize (IH (S idx) (acc ++ [ {| rule_collection_id := n; rule_tags := ts;
                                        rule_name := default JNull (o !! "name") |} ])).
    destruct (forallb (entry_ok true) l).
    + destruct IH as (rs & Hrun & Hall). eexists (_ :: rs).
      split; [rewrite Hrun, <- app_assoc; reflexivity|].
      constructor; [|exact Hall].
      exists o, (JInt n), tags, ts, n. auto 10.
    + exact IH.
Qed.

(** C6, as the loader behaves. For a map file whose collection ids are JSON
    integers, [load_collection_map] raises [ValueError] exactly when the
    content is not a list, or an entry is not an object, lacks
    ["collection_id"] or ["tags"], or has tags that are not a list of
    strings; an entry whose tag list is empty is accepted. Otherwise it
    returns one rule per entry, in the order of the file. *)
Theorem load_collection_map_checks (data : json) :
  integer_ids data = true ->
  ((exists msg, load_collection_map (Some data) = Raise (ValueError msg))
   <-> well_formed data = false)
  /\ (well_formed data = true ->
      exists l rules, data = JList l
                      /\ load_collection_map (Some data) = Ok rules
                      /\ Forall2 loads_to l rules).
Proof.
  intros Hids.
  destruct data as [| | | | |l|]; simpl;
    try (split; [split; [reflexivity | eauto] | discriminate]).
  simpl in Hids. pose proof (load_loop_integer_ids l Hids 0%nat []) as Hrun.
  destruct (forallb (entry_ok true) l).
  - destruct Hrun as (rs & Hrun & Hall). simpl in Hrun. split.
    + split; [|discriminate]. intros (msg & Hmsg). congruence.
    + intros _. eauto.
  - split; [split; [reflexivity | intros _; exact Hrun] | discriminate].
Qed.

End RuleLoader.

Lemma load_collection_map_checks_witness :
  integer_ids (JList [JObj {[ "collection_id" := JInt 555; "tags" := JList [JStr "work"] ]};
                      JStr "oops"]) = true
  /\ exists msg,
       @load_collection_map ascii_interpreter
         (Some (JList [JObj {[ "collection_id" := JInt 555; "tags" := JList [JStr "work"] ]};
                       JStr "oops"]))
       = Raise (ValueError msg).
Proof.
  split; [vm_compute; reflexivity|].
  apply (@load_collection_map_checks ascii_interpreter); vm_compute; reflexivity.
Defined.

(** C6, as stated, fails: an entry with an empty tag list is malformed in
    the specification's terms, and the loader returns it as a rule. *)
Lemma load_collection_map_accepts_empty_tags :
  let data := JList [JObj {[ "collection_id" := JInt 1; "tags" := JList [] ]}] in
  well_formed_as_specified data = false
  /\ forall I : Interpreter,
       @load_collection_map I (Some data)
       = Ok [ {| rule_collection_id := 1; rule_tags := []; rule_name := JNull |} ].
Proof. split; [vm_compute; reflexivity | intros I; vm_compute; reflexivity]. Qed.

(** ** Requests and reconciliation *)

Section Reconciliation.
Context `{Interpreter} {W : Type} `{Client W}.
Local Open Scope eff_scope.

(** The lookup never raises an HTTP error of its own, and its two results
    come together. *)
Lemma find_existing_raindrop_cases (link : string) (w : W) :
  match search_request link w with
  | (w', Raise e) =>
      find_existing_raindrop link w
      = (w', if HTTPError e then Ok (None, None) else Raise e)
  | (w', Ok r) =>
      find_existing_raindrop link w
      = (w', Ok (if status_ok r
                 then match body r with
                      | it :: _ => (Some it, Some (item_id it))
                      | [] => (None, None)
                      end
                 else (None, None)))
  end.
Proof.
  unfold find_existing_raindrop, search_request, try_except, bind, raise_for_status.
  destruct (client_get _ _ w) as [w' [r|e]].
  - destruct (status_ok r); simpl; [|reflexivity].
    destruct (body r); reflexivity.
  - destruct (HTTPError e); reflexivity.
Qed.

(** C7. When the search call of the lookup fails with an HTTP error, raised
    by the request itself or by [raise_for_status] on an error status,
    [find_existing_raindrop] returns [(None, None)] and raises nothing; the
    record then takes the create path of the reconciliation, so the batch
    goes on. *)
Theorem lookup_failure_is_not_found (link : string) (w w' : W) :
  ((exists e, search_request link w = (w', Raise e) /\ HTTPError e = true)
   \/ (exists r, search_request link w = (w', Ok r) /\ status_ok r = false)) ->
  find_existing_raindrop link w = (w', Ok (None, None))
  /\ (forall a p s,
        skip_existing a || merge_tags a = true ->
        reconcile a link p s w
        = (ok <- create_raindrop p ;;
           ret (if ok : bool then incr_created s else incr_failed s)) w').
Proof.
  intros Hfail.
  assert (Hfind : find_existing_raindrop link w = (w', Ok (None, None))).
  { pose proof (find_existing_raindrop_cases link w) as Hc.
    destruct Hfail as [(e & Hrq & He) | (r & Hrq & Hr)]; rewrite Hrq in Hc.
    - now rewrite He in Hc.
    - now rewrite Hr in Hc. }
  split; [exact Hfind|].
  intros a p s Hlook. unfold reconcile. rewrite Hlook.
  unfold bind at 1. rewrite Hfind. simpl.
  unfold reconcile_action. simpl. reflexivity.
Qed.

End Reconciliation.

Lemma lookup_failure_is_not_found_witness :
  let w := Mock.offline [] in
  let w' := {| Mock.store := []; Mock.reachable := false; Mock.accepts := true;
               Mock.sent := [Mock.GET "/raindrops/0"
                               [("search", JStr "link:https://example.com");
                                ("perpage", JInt 1)]] |} in
  @search_request _ Mock.client "https://example.com" w = (w', Raise RequestError)
  /\ @find_existing_raindrop _ Mock.client "https://example.com" w = (w', Ok (None, None)).
Proof.
  split; [reflexivity|].
  apply (@lookup_failure_is_not_found _ Mock.client).
  left. exists RequestError. split; reflexivity.
Defined.

Section DecisionTable.
Context {W : Type} `{Client W}.
Local Open Scope eff_scope.

Lemma reconcile_after_lookup (a : args) (href : string) (p : payload) (s : stats) (w : W) :
  reconcile a href p s w
  = match (if skip_existing a || merge_tags a
           then find_existing_raindrop href w
           else (w, Ok (None, None))) with
    | (w1, Ok found) =>
        match reconcile_action a (fst found) (snd found) with
        | SKIP => (w1, Ok (incr_skipped_existing s))
        | MERGE existing_id existing_item =>
            (ok <- update_raindrop existing_id p existing_item true ;;
             ret (if ok : bool then incr_updated s else incr_failed s)) w1
        | CREATE =>
            (ok <- create_raindrop p ;;
             ret (if ok : bool then incr_created s else incr_failed s)) w1
        end
    | (w1, Raise e) => (w1, Raise e)
    end.
Proof.
  unfold reconcile. unfold bind at 1.
  destruct (skip_existing a || merge_tags a).
  - destruct (find_existing_raindrop href w) as [w1 [found|e]]; [|reflexivity].
    destruct (reconcile_action a (fst found) (snd found)); reflexivity.
  - unfold ret at 1. destruct (reconcile_action a _ _); reflexivity.
Qed.

(** What the lookup can return: an item with its id, or nothing. *)
Lemma find_existing_raindrop_shape (link : string) (w w1 : W)
    (found : option item * option Z) :
  find_existing_raindrop link w = (w1, Ok found) ->
  found = (None, None) \/ exists it, found = (Some it, Some (item_id it)).
Proof.
  intros Hf. pose proof (find_existing_raindrop_cases link w) as Hc.
  destruct (search_request link w) as [w' [r|e]]; rewrite Hf in Hc.
  - injection Hc as _ ->. destruct (status_ok r); [|now left].
    destruct (body r) as [|it ?]; [now left | right; now exists it].
  - destruct (HTTPError e); [|discriminate]. injection Hc as _ ->. now left.
Qed.

(** The decision of lines 358-374, row by row, for a payload that reaches
    them: with no existing record found (or none looked for, when both
    flags are off) the record is created; an existing record with
    [skip_existing] on and [merge_tags] off is skipped, counted as skipped,
    with no request after the lookup; with [merge_tags] on, whatever
    [skip_existing], an existing record whose id is not zero is updated
    through [update_raindrop]; with both flags off no lookup is made and the
    record is created. For these the code follows the table of the
    specification. The one departure is an existing record whose id is
    zero: with [merge_tags] on it is created anew. *)
Theorem reconcile_decision_table (a : args) (href : string) (p : payload) (s : stats) (w : W) :
  let create := (ok <- create_raindrop p ;;
                 ret (if ok : bool then incr_created s else incr_failed s)) in
  let found_as it w1 := find_existing_raindrop href w = (w1, Ok (Some it, Some (item_id it))) in
  (forall w1,
      skip_existing a || merge_tags a = true ->
      find_existing_raindrop href w = (w1, Ok (None, None)) ->
      reconcile a href p s w = create w1)
  /\ (forall w1 it,
        skip_existing a = true -> merge_tags a = false -> found_as it w1 ->
        reconcile a href p s w = (w1, Ok (incr_skipped_existing s)))
  /\ (forall w1 it,
        merge_tags a = true -> item_id it <> 0 -> found_as it w1 ->
        reconcile a href p s w
        = (ok <- update_raindrop (item_id it) p it true ;;
           ret (if ok : bool then incr_updated s else incr_failed s)) w1)
  /\ (forall w1 it,
        merge_tags a = true -> item_id it = 0 -> found_as it w1 ->
        reconcile a href p s w = create w1)
  /\ (skip_existing a = false -> merge_tags a = false ->
      reconcile a href p s w = create w)
  /\ (forall w1 found,
        find_existing_raindrop href w = (w1, Ok found) ->
        found = (None, None) \/ exists it, found = (Some it, Some (item_id it))).
Proof.
  cbv zeta. rewrite reconcile_after_lookup. unfold reconcile_action. repeat split.
  - intros w1 Hlook Hfind. rewrite Hlook, Hfind. reflexivity.
  - intros w1 it Hs Hm Hfind. rewrite Hs, Hm, Hfind. reflexivity.
  - intros w1 it Hm Hid Hfind. rewrite Hm, orb_true_r, Hfind. simpl.
    apply Z.eqb_neq in Hid. rewrite Hid, andb_false_r. reflexivity.
  - intros w1 it Hm Hid Hfind. rewrite Hm, orb_true_r, Hfind. simpl.
    rewrite Hid, andb_false_r. reflexivity.
  - intros Hs Hm. rewrite Hs, Hm. reflexivity.
  - intros w1 found. apply find_existing_raindrop_shape.
Qed.

(** C1, as the update behaves. When the existing record's tags contain all
    of the payload's tags, the payload has no non-empty note or excerpt and
    is not important, a merge still computes a delta: exactly the ["tags"]
    key, holding the existing tags, distinct and sorted. The delta is not
    empty, so the update request is sent and its status decides the result.
    The delta is empty, and [update_raindrop] returns [True] without a
    request, when [merge_tags] is off. *)
Theorem merge_delta_keeps_tags (raindrop_id : Z) (p : payload) (existing : item) (w : W) :
  (forall t, t ∈ tags p -> t ∈ default [] (item_tags existing)) ->
  truthy_opt (note p) = false ->
  truthy_opt (excerpt p) = false ->
  important p = false ->
  let delta : gmap string json :=
    {[ "tags" := JList (JStr <$> sorted (set (default [] (item_tags existing)))) ]} in
  update_body p existing true = delta
  /\ delta <> ∅
  /\ update_raindrop raindrop_id p existing true w
     = (response <- client_put ("/raindrop/" ++ str_of_Z raindrop_id)%string delta ;;
        try_except (raise_for_status response ;;; ret true) HTTPStatusError_only (ret false)) w
  /\ update_body p existing false = ∅
  /\ update_raindrop raindrop_id p existing false w = (w, Ok true).
Proof.
  intros Hsub Hnote Hexc Himp delta.
  assert (Hbody : forall merge,
            update_body p existing merge
            = if merge
              then <["tags" := JList (JStr <$> sorted (set (default [] (item_tags existing))
                                                         ∪ set (tags p)))]> ∅
              else ∅).
  { intros merge. unfold update_body. cbv zeta. rewrite Himp.
    destruct (note p) as [n|]; simpl in Hnote; [rewrite Hnote|];
      (destruct (excerpt p) as [x|]; simpl in Hexc; [rewrite Hexc|]); reflexivity. }
  assert (Hset : set (default [] (item_tags existing)) ∪ set (tags p)
                 = set (default [] (item_tags existing))).
  { apply set_eq. intros t. rewrite elem_of_union, !elem_of_set. split; [|tauto].
    intros [Ht|Ht]; [exact Ht | now apply Hsub]. }
  assert (Hon : update_body p existing true = delta).
  { rewrite Hbody, Hset. apply insert_empty. }
  assert (Hoff : update_body p existing false = ∅) by apply Hbody.
  assert (Hne : delta <> ∅) by apply map_non_empty_singleton.
  split; [exact Hon|]. split; [exact Hne|]. split; [|split; [exact Hoff|]].
  - unfold update_raindrop. cbv zeta. rewrite Hon.
    now rewrite bool_decide_eq_false_2.
  - unfold update_raindrop. cbv zeta. rewrite Hoff.
    now rewrite bool_decide_eq_true_2.
Qed.

End DecisionTable.

Lemma merge_delta_keeps_tags_witness :
  (forall t, t ∈ tags Sample.bookmark -> t ∈ default [] (item_tags (Sample.stored 7)))
  /\ update_body Sample.bookmark (Sample.stored 7) true
     = {[ "tags" := JList [JStr "a"; JStr "b"] ]}.
Proof.
  assert (Hsub : forall t, t ∈ tags Sample.bookmark
                           -> t ∈ default [] (item_tags (Sample.stored 7))).
  { intros t Ht. simpl in *. apply list_elem_of_singleton in Ht as ->. constructor. }
  split; [exact Hsub|].
  exact (proj1 (@merge_delta_keeps_tags _ Mock.client 7 Sample.bookmark (Sample.stored 7)
                  (Mock.online []) Hsub eq_refl eq_refl eq_refl)).
Defined.

(** C1, as stated, fails: merging a payload into a record that already has
    its tag, with no note and no important flag, gives a delta that is not
    empty, and the update request is sent. *)
Lemma merge_of_identical_data_writes :
  let existing := {| item_id := 7; item_tags := Some ["a"]; item_link := Some Sample.url |} in
  update_body Sample.bookmark existing true = {[ "tags" := JList [JStr "a"] ]}
  /\ update_body Sample.bookmark existing true <> ∅
  /\ @update_raindrop _ Mock.client 7 Sample.bookmark existing true (Mock.online [existing])
     = ({| Mock.store := [existing]; Mock.reachable := true; Mock.accepts := true;
           Mock.sent := [Mock.PUT "/raindrop/7" {[ "tags" := JList [JStr "a"] ]}] |},
        Ok true).
Proof.
  cbv zeta. split; [vm_compute; reflexivity|]. split.
  - assert (Hb : update_body Sample.bookmark
                   {| item_id := 7; item_tags := Some ["a"]; item_link := Some Sample.url |} true
                 = {[ "tags" := JList [JStr "a"] ]}) by (vm_compute; reflexivity).
    rewrite Hb. apply map_non_empty_singleton.
  - vm_compute. reflexivity.
Qed.

(** C2. The code departs from the decision table at an existing record
    whose id is zero: the test [existing_item and args.merge_tags and
    existing_id] takes the id 0 for false, so with [merge_tags] on the
    record the lookup found is not merged: the payload is created, a
    create request is sent and no update. *)
Lemma merge_with_zero_id_creates :
  let w := Mock.online [Sample.stored 0] in
  let run := @reconcile _ Mock.client (Sample.options true true) Sample.url
               Sample.bookmark stats0 w in
  snd (@find_existing_raindrop _ Mock.client Sample.url w)
  = Ok (Some (Sample.stored 0), Some 0)
  /\ snd run = Ok (incr_created stats0)
  /\ Mock.sent (fst run) = [Sample.search; Mock.POST "/raindrop" Sample.bookmark].
Proof. cbv zeta. repeat split; vm_compute; reflexivity. Qed.

(** ** The batch loop *)

Section Batch.
Context `{Interpreter} {W : Type} `{Client W}.
Local Open Scope eff_scope.

Lemma bind_ret_choice {A : Type} (m : M W bool) (x y : A) (w w' : W) (r : A) :
  (ok <- m ;; ret (if ok : bool then x else y)) w = (w', Ok r) -> r = x \/ r = y.
Proof.
  unfold bind, ret. destruct (m w) as [w1 [[|]|e]]; intros Heq;
    inversion Heq; auto.
Qed.

(** The reconciliation counts an outcome and leaves [processed] and
    [duplicate_input] alone. *)
Lemma reconcile_counters (a : args) (href : string) (p : payload) (s s' : stats) (w w' : W) :
  reconcile a href p s w = (w', Ok s') ->
  processed s' = processed s /\ duplicate_input s' = duplicate_input s.
Proof.
  rewrite reconcile_after_lookup.
  destruct (if skip_existing a || merge_tags a then _ else _) as [w1 [found|e]];
    [|discriminate].
  destruct (reconcile_action a (fst found) (snd found)).
  - intros Heq. inversion Heq. split; reflexivity.
  - intros Heq. apply bind_ret_choice in Heq as [-> | ->]; split; reflexivity.
  - intros Heq. apply bind_ret_choice in Heq as [-> | ->]; split; reflexivity.
Qed.

Lemma payload_of_entry_with_href (e : entry) (a : args) (rules : list rule) (href : string) :
  e !! "href" = Some href ->
  exists p, pinboard_to_raindrop_payload e a rules = Ok p /\ link p = href.
Proof.
  intros Hh. unfold pinboard_to_raindrop_payload. rewrite Hh. eexists. split; reflexivity.
Qed.

(** The four ways an iteration can end without raising. *)
Lemma main_body_cases (a : args) (rules : list rule) (st : loop_state) (e : entry)
    (w w' : W) (f : flow) :
  main_body a rules st e w = (w', Ok f) ->
  (f = Break /\ w' = w)
  \/ (f = Next st /\ w' = w)
  \/ (f = Next {| st_stats := incr_duplicate_input (st_stats st);
                  seen_links := seen_links st |}
      /\ w' = w
      /\ exists href, e !! "href" = Some href /\ href <> "" /\ href ∈ seen_links st)
  \/ (exists href s',
        e !! "href" = Some href /\ href <> "" /\ (href ∉ seen_links st)
        /\ f = Next {| st_stats := s'; seen_links := ({[ href ]} ∪ seen_links st) |}
        /\ processed s' = processed (st_stats st) + 1
        /\ duplicate_input s' = duplicate_input (st_stats st)).
Proof.
  unfold main_body.
  destruct (match limit a with Some l => _ | None => false end).
  { intros Heq. inversion Heq. auto. }
  destruct (e !! "href") as [href|] eqn:Hh; [|intros Heq; inversion Heq; auto].
  destruct (truthy_str href) eqn:Ht; simpl; [|intros Heq; inversion Heq; auto].
  apply truthy_str_true in Ht.
  destruct (bool_decide (href ∈ seen_links st)) eqn:Hseen.
  { apply bool_decide_eq_true in Hseen. intros Heq. inversion Heq.
    right. right. left. eauto 6. }
  apply bool_decide_eq_false in Hseen.
  destruct (payload_of_entry_with_href e a rules href Hh) as (p & Hp & _).
  rewrite Hp. unfold bind at 1, lift.
  destruct (dry_run a).
  { intros Heq. inversion Heq. right. right. right.
    exists href, (incr_processed (st_stats st)). auto 8. }
  unfold bind at 1.
  destruct (reconcile a href p (st_stats st) w) as [w1 [s1|ex]] eqn:Hrec; [|discriminate].
  intros Heq. inversion Heq. apply reconcile_counters in Hrec as [Hproc Hdup].
  right. right. right. exists href, (incr_processed s1).
  simpl. rewrite Hproc, Hdup. auto 8.
Qed.

(** Over a whole run the processed count moves in step with the set of
    seen links, which holds links of the batch only. *)
Lemma main_loop_invariant (a : args) (rules : list rule) (posts : list entry) :
  forall (st st' : loop_state) (w w' : W),
    main_loop a rules posts st w = (w', Ok st') ->
    processed (st_stats st') - Z.of_nat (size (seen_links st'))
    = processed (st_stats st) - Z.of_nat (size (seen_links st))
    /\ seen_links st' ⊆ seen_links st ∪ list_to_set (omap (fun e : entry => e !! "href") posts).
Proof.
  induction posts as [|e posts IH]; intros st st' w w'; simpl.
  - intros Heq. inversion Heq. split; [reflexivity | set_solver].
  - unfold bind at 1.
    destruct (main_body a rules st e w) as [w1 [f|ex]] eqn:Hbody; [|discriminate].
    apply main_body_cases in Hbody
      as [[-> ->] | [[-> ->] | [(-> & -> & _) | (href & s1 & Hh & _ & Hnew & -> & Hproc & _)]]].
    + intros Heq. inversion Heq. split; [reflexivity | set_solver].
    + intros Hrun. apply IH in Hrun as [Hbal Hsub]. split; [exact Hbal|].
      destruct (e !! "href"); set_solver.
    + intros Hrun. apply IH in Hrun as [Hbal Hsub]. simpl in *. split; [exact Hbal|].
      destruct (e !! "href"); set_solver.
    + intros Hrun. apply IH in Hrun as [Hbal Hsub]. simpl in *. rewrite Hh. split.
      * rewrite Hbal, Hproc, size_union by set_solver. rewrite size_singleton. lia.
      * set_solver.
Qed.

(** [main] runs the loop from the initial state on the rules of the map,
    and ends with [sys.exit(1)], nothing sent, when the map is refused. *)
Lemma main_run (a : args) (collection_map : option json) (posts : list entry)
    (w w' : W) (s : stats) :
  main a collection_map posts w = (w', Ok s) ->
  exists rules st',
    load_collection_map collection_map = Ok rules
    /\ main_loop a rules posts initial_state w = (w', Ok st')
    /\ s = st_stats st'.
Proof.
  unfold main, bind, try_except, lift, raise, ret.
  destruct (load_collection_map collection_map) as [rules|ex].
  - destruct (main_loop a rules posts initial_state w) as [w1 [st'|ex]] eqn:Hrun;
      intros Heq; inversion Heq. subst. eauto.
  - destruct (ValueError_any ex); discriminate.
Qed.

Lemma main_bad_map_exits (a : args) (collection_map : option json) (posts : list entry)
    (w : W) (msg : string) :
  load_collection_map collection_map = Raise (ValueError msg) ->
  main a collection_map posts w = (w, Raise (SystemExit 1)).
Proof. intros Hbad. unfold main, bind, try_except, lift, raise. now rewrite Hbad. Qed.

(** One iteration that the limit does not stop, by the link of its
    entry. *)
Lemma main_body_step (a : args) (rules : list rule) (st : loop_state) (e : entry)
    (w w' : W) (f : flow) :
  limit_reached a (st_stats st) = false ->
  main_body a rules st e w = (w', Ok f) ->
  exists st1,
    f = Next st1
    /\ match link_of e with
       | None => st1 = st /\ w' = w
       | Some href =>
           if bool_decide (href ∈ seen_links st)
           then st1 = {| st_stats := incr_duplicate_input (st_stats st);
                         seen_links := seen_links st |} /\ w' = w
           else seen_links st1 = {[ href ]} ∪ seen_links st
                /\ processed (st_stats st1) = processed (st_stats st) + 1
                /\ duplicate_input (st_stats st1) = duplicate_input (st_stats st)
       end.
Proof.
  intros Hl. unfold limit_reached in Hl. unfold main_body, link_of. rewrite Hl.
  destruct (e !! "href") as [href|] eqn:Hh; [|intros Heq; inversion Heq; eauto].
  destruct (truthy_str href) eqn:Ht; simpl; [|intros Heq; inversion Heq; eauto].
  destruct (bool_decide (href ∈ seen_links st)); [intros Heq; inversion Heq; eauto|].
  destruct (payload_of_entry_with_href e a rules href Hh) as (p & Hp & _).
  rewrite Hp. unfold bind at 1, lift.
  destruct (dry_run a); [intros Heq; inversion Heq; eexists; split; [reflexivity|]; auto|].
  unfold bind at 1.
  destruct (reconcile a href p (st_stats st) w) as [w1 [s1|ex]] eqn:Hrec; [|discriminate].
  intros Heq. inversion Heq. apply reconcile_counters in Hrec as [Hproc Hdup].
  eexists. split; [reflexivity|]. simpl. rewrite Hproc, Hdup. auto.
Qed.

(** Without a limit every entry is looked at: the links seen at the end are
    those seen before and those of the batch, and each entry with a link is
    counted once, as processed or as a duplicate. *)
Lemma main_loop_without_limit (a : args) (rules : list rule) (posts : list entry) :
  limit a = None ->
  forall (st st' : loop_state) (w w' : W),
    main_loop a rules posts st w = (w', Ok st') ->
    seen_links st' = seen_links st ∪ list_to_set (omap link_of posts)
    /\ processed (st_stats st') + duplicate_input (st_stats st')
       = processed (st_stats st) + duplicate_input (st_stats st)
         + Z.of_nat (length (omap link_of posts)).
Proof.
  intros Hnone.
  assert (Hl : forall st, limit_reached a (st_stats st) = false)
    by (intros st; unfold limit_reached; now rewrite Hnone).
  induction posts as [|e posts IH]; intros st st' w w'.
  - simpl. intros Heq. inversion Heq. subst. split; [set_solver | lia].
  - simpl main_loop. unfold bind at 1.
    destruct (main_body a rules st e w) as [w1 [f|ex]] eqn:Hbody; [|discriminate].
    apply (main_body_step a rules st e w w1 f (Hl st)) in Hbody as (st1 & -> & Hstep).
    intros Hrun. apply IH in Hrun as [Hseen Hcount].
    assert (Hcons : omap link_of (e :: posts)
                    = match link_of e with
                      | Some href => href :: omap link_of posts
                      | None => omap link_of posts
                      end) by reflexivity.
    rewrite Hcons. clear Hcons.
    destruct (link_of e) as [href|].
    + rewrite list_to_set_cons. cbn [length]. rewrite Nat2Z.inj_succ.
      destruct (bool_decide (href ∈ seen_links st)) eqn:Hin.
      * apply bool_decide_eq_true in Hin. destruct Hstep as [-> _].
        cbn [st_stats seen_links] in *. unfold incr_duplicate_input in Hcount.
        cbn [processed duplicate_input] in Hcount.
        split; [set_solver | lia].
      * destruct Hstep as (Hs1 & Hp1 & Hd1). split; [set_solver | lia].
    + destruct Hstep as [-> _]. split; [exact Hseen | exact Hcount].
Qed.

(** C9, as the loop behaves. Within one run each link is processed at most
    once. A record whose link was already seen, and which the loop reaches
    before [--limit] stops it, ends its iteration with [duplicate_input]
    raised by exactly one, nothing sent and nothing else changed; once the
    limit is reached the loop stops at the next record, whatever its link,
    and counts nothing. A record counted as processed has a link not seen
    before, which is then seen, so over a whole run [processed] equals the
    number of distinct links seen, all of them links of the batch, and a run
    of [main] processes no more records than the batch has distinct links.
    Without a limit the links seen are exactly the links of the batch, and
    [duplicate_input] ends as the number of entries with a link less the
    number of distinct links. The set of seen links starts empty in every
    run, whatever earlier runs left behind the client: the first record of
    a run is never a duplicate. *)
Theorem duplicate_links_processed_once (a : args) (rules : list rule) :
  (forall st e href w,
      e !! "href" = Some href -> href <> "" -> href ∈ seen_links st ->
      limit_reached a (st_stats st) = false ->
      main_body a rules st e w
      = (w, Ok (Next {| st_stats := incr_duplicate_input (st_stats st);
                        seen_links := seen_links st |})))
  /\ (forall st e w,
        limit_reached a (st_stats st) = true ->
        main_body a rules st e w = (w, Ok Break))
  /\ (forall st e w w' st',
        main_body a rules st e w = (w', Ok (Next st')) ->
        processed (st_stats st') <> processed (st_stats st) ->
        exists href, e !! "href" = Some href /\ (href ∉ seen_links st)
                     /\ href ∈ seen_links st'
                     /\ processed (st_stats st') = processed (st_stats st) + 1)
  /\ (forall posts w w' st',
        main_loop a rules posts initial_state w = (w', Ok st') ->
        processed (st_stats st') = Z.of_nat (size (seen_links st'))
        /\ seen_links st' ⊆ list_to_set (omap (fun e : entry => e !! "href") posts))
  /\ (limit a = None ->
      forall posts w w' st',
        main_loop a rules posts initial_state w = (w', Ok st') ->
        seen_links st' = list_to_set (omap link_of posts)
        /\ duplicate_input (st_stats st')
           = Z.of_nat (length (omap link_of posts))
             - Z.of_nat (size (list_to_set (omap link_of posts) : gset string)))
  /\ (forall collection_map posts w w' s,
        main a collection_map posts w = (w', Ok s) ->
        0 <= processed s
          <= Z.of_nat (size (list_to_set (omap (fun e : entry => e !! "href") posts)
                             : gset string)))
  /\ seen_links initial_state = ∅
  /\ (forall e w w' st',
        main_body a rules initial_state e w = (w', Ok (Next st')) ->
        duplicate_input (st_stats st') = 0).
Proof.
  split; [|split; [|split; [|split; [|split; [|split; [|split]]]]]].
  - intros st e href w Hh Hne Hseen Hl. unfold limit_reached in Hl. unfold main_body.
    rewrite Hl, Hh. apply truthy_str_true in Hne. rewrite Hne. simpl.
    now rewrite bool_decide_eq_true_2.
  - intros st e w Hl. unfold limit_reached in Hl. unfold main_body. now rewrite Hl.
  - intros st e w w' st' Hbody Hproc.
    apply main_body_cases in Hbody
      as [[? _] | [[Heq _] | [(Heq & _) | (href & s1 & Hh & _ & Hnew & Heq & Hp & _)]]];
      try discriminate; inversion Heq; subst; simpl in *; try congruence.
    exists href. repeat split; [exact Hh | exact Hnew | set_solver | exact Hp].
  - intros posts w w' st' Hrun.
    apply main_loop_invariant in Hrun as [Hbal Hsub].
    change (seen_links initial_state) with (∅ : gset string) in *.
    change (processed (st_stats initial_state)) with 0 in Hbal.
    rewrite size_empty in Hbal. split; [lia | set_solver].
  - intros Hnone posts w w' st' Hrun.
    pose proof (main_loop_invariant a rules posts _ _ _ _ Hrun) as [Hbal _].
    apply (main_loop_without_limit a rules posts Hnone) in Hrun as [Hseen Hcount].
    change (seen_links initial_state) with (∅ : gset string) in *.
    change (processed (st_stats initial_state)) with 0 in *.
    change (duplicate_input (st_stats initial_state)) with 0 in *.
    rewrite size_empty in Hbal.
    assert (Hs : seen_links st' = list_to_set (omap link_of posts)) by set_solver.
    split; [exact Hs|]. rewrite <- Hs. lia.
  - intros collection_map posts w w' s Hmain.
    apply main_run in Hmain as (rules' & st' & _ & Hrun & ->).
    apply main_loop_invariant in Hrun as [Hbal Hsub].
    change (seen_links initial_state) with (∅ : gset string) in *.
    change (processed (st_stats initial_state)) with 0 in Hbal.
    rewrite size_empty in Hbal.
    assert (Hle : (size (seen_links st')
                   <= size (list_to_set (omap (fun e : entry => e !! "href") posts)
                            : gset string))%nat)
      by (apply subseteq_size; set_solver).
    lia.
  - reflexivity.
  - intros e w w' st' Hbody.
    apply main_body_cases in Hbody
      as [[? _] | [[Heq _] | [(_ & _ & href & _ & _ & Hin) | (href & s1 & _ & _ & _ & Heq & _ & Hd)]]].
    + discriminate.
    + inversion Heq. reflexivity.
    + exfalso. revert Hin. apply not_elem_of_empty.
    + inversion Heq. simpl. exact Hd.
Qed.

End Batch.

(** C9, as stated, fails under [--limit]: with a limit of one and the same
    post given twice, the second record has a link already seen, yet the
    loop stops before it and [duplicate_input] stays at zero. *)
Lemma limit_stops_before_duplicate :
  let a := {| collection_id := 0; readlater_collection_id := None; toread_tag := "toread";
              lowercase_tags := false; skip_existing := true; merge_tags := false;
              limit := Some 1; dry_run := false |} in
  let st1 := {| st_stats := {| processed := 1; created_count := 1; skipped_existing := 0;
                               updated := 0; failed := 0; duplicate_input := 0 |};
                seen_links := {[ Sample.url ]} |} in
  Sample.post !! "href" = Some Sample.url
  /\ Sample.url ∈ seen_links st1
  /\ snd (@main_body ascii_interpreter _ Mock.client a [] st1 Sample.post (Mock.online []))
     = Ok Break
  /\ snd (@main_loop ascii_interpreter _ Mock.client a [] [Sample.post; Sample.post]
            initial_state (Mock.online [])) = Ok st1.
Proof.
  cbv zeta. split; [vm_compute; reflexivity|].
  split; [cbn [seen_links]; set_solver|].
  split; vm_compute; reflexivity.
Qed.

(** The batch of one post given twice: the second is a duplicate. With a
    limit of one the loop stops before looking at it. *)
Example run_of_a_repeated_post :
  let run := @main_loop ascii_interpreter _ Mock.client (Sample.options true false) []
               [Sample.post; Sample.post] initial_state (Mock.online []) in
  snd run = Ok {| st_stats := {| processed := 1; created_count := 1; skipped_existing := 0;
                                 updated := 0; failed := 0; duplicate_input := 1 |};
                  seen_links := {[ Sample.url ]} |}
  /\ Mock.sent (fst run) = [Sample.search; Mock.POST "/raindrop" Sample.bookmark].
Proof. cbv zeta. split; vm_compute; reflexivity. Qed.

Example run_of_a_repeated_post_with_limit :
  let a := {| collection_id := 0; readlater_collection_id := None; toread_tag := "toread";
              lowercase_tags := false; skip_existing := true; merge_tags := false;
              limit := Some 1; dry_run := false |} in
  let run := @main_loop ascii_interpreter _ Mock.client a []
               [Sample.post; Sample.post] initial_state (Mock.online []) in
  snd run = Ok {| st_stats := {| processed := 1; created_count := 1; skipped_existing := 0;
                                 updated := 0; failed := 0; duplicate_input := 0 |};
                  seen_links := {[ Sample.url ]} |}.
Proof. cbv zeta. vm_compute. reflexivity. Qed.

(** ** Reclassifier *)

Section Reclassifier.
Context `{Interpreter}.
Import Urllib suggest_collections.

Lemma guess_collection_none (tags : list string) (rules : list rule) :
  guess_collection tags rules = None <-> Forall (fun r => ~ intersects tags r) rules.
Proof.
  induction rules as [|r rules IH]; simpl.
  - split; [constructor | reflexivity].
  - destruct (rule_matches tags r) eqn:Hr.
    + apply rule_matches_intersects in Hr. split; [discriminate|].
      intros Hall. inversion Hall. contradiction.
    + apply rule_matches_not_intersects in Hr. rewrite IH. split.
      * now constructor.
      * intros Hall. now inversion Hall.
Qed.

Lemma guess_collection_first (tags : list string) (pre : list rule) (r : rule)
    (post : list rule) :
  Forall (fun r' => ~ intersects tags r') pre -> intersects tags r ->
  guess_collection tags (pre ++ r :: post) = Some (rule_collection_id r).
Proof.
  intros Hpre Hr. induction Hpre as [|r' pre Hr' _ IH]; simpl.
  - apply rule_matches_intersects in Hr. now rewrite Hr.
  - apply rule_matches_not_intersects in Hr'. now rewrite Hr'.
Qed.

Lemma strip_www_prefix (rest : string) : strip_www ("www." ++ rest)%string = rest.
Proof. reflexivity. Qed.

Lemma strip_www_other (host : string) :
  (forall rest, host <> ("www." ++ rest)%string) -> strip_www host = host.
Proof.
  intros Hno. unfold strip_www.
  repeat match goal with
         | |- match ?s with EmptyString => _ | String _ _ => _ end = _ =>
             destruct s as [|? ?]; try reflexivity
         | |- (if ?b then _ else _) = _ => destruct b eqn:?; try reflexivity
         | |- match ?c with Ascii _ _ _ _ _ _ _ _ => _ end = _ => destruct c
         end.
  exfalso. eapply Hno. reflexivity.
Qed.

Lemma forallb_str_impl (p q : ascii -> bool) (s : string) :
  (forall c, p c = true -> q c = true) ->
  forallb_str p s = true -> forallb_str q s = true.
Proof.
  intros Hpq. induction s as [|c s IH]; simpl; [reflexivity|].
  intros Hs. apply andb_true_iff in Hs as [Hc Hs].
  apply andb_true_iff. split; [now apply Hpq | now apply IH].
Qed.

Lemma remove_keep (p : ascii -> bool) (s t : string) :
  forallb_str (fun c => negb (p c)) s = true ->
  remove p (s ++ t)%string = (s ++ remove p t)%string.
Proof.
  induction s as [|c s IH]; simpl; [reflexivity|].
  intros Hs. apply andb_true_iff in Hs as [Hc Hs].
  apply negb_true_iff in Hc. rewrite Hc. now rewrite IH.
Qed.

Lemma break_keep (p : ascii -> bool) (s : string) (c : ascii) (t : string) :
  forallb_str (fun x => negb (p x)) s = true -> p c = true ->
  break p (s ++ String c t)%string = (s, String c t).
Proof.
  intros Hs Hc. induction s as [|x s IH]; simpl.
  - now rewrite Hc.
  - simpl in Hs. apply andb_true_iff in Hs as [Hx Hs].
    apply negb_true_iff in Hx. rewrite Hx. now rewrite (IH Hs).
Qed.

Lemma plain_netloc_char_spec (c : ascii) :
  plain_netloc_char c = true ->
  is_unsafe_byte c = false /\ is_netloc_delim c = false
  /\ Ascii.eqb "[" c = false /\ Ascii.eqb "]" c = false
  /\ Nat.ltb (code c) 128 = true.
Proof.
  unfold plain_netloc_char, is_unsafe_byte. intros Hc.
  repeat (apply andb_true_iff in Hc as [Hc ?]).
  repeat match goal with H : negb _ = true |- _ => apply negb_true_iff in H end.
  apply Nat.ltb_lt in Hc.
  repeat split; try assumption.
  repeat (apply orb_false_iff; split); apply Nat.eqb_neq; lia.
Qed.

(** The network location of [https://AUTH/PATH] is [AUTH] as it stands, user
    information and port included. *)
Lemma urlparse_netloc_https (auth path : string) :
  forallb_str plain_netloc_char auth = true ->
  urlparse_netloc ("https://" ++ auth ++ "/" ++ path)%string = Ok auth.
Proof.
  intros Hplain. unfold urlparse_netloc.
  assert (Hsafe : forallb_str (fun c => negb (is_unsafe_byte c)) auth = true).
  { apply (forallb_str_impl plain_netloc_char); [|exact Hplain].
    intros c Hc. apply plain_netloc_char_spec in Hc as (-> & _). reflexivity. }
  assert (Hnodelim : forallb_str (fun c => negb (is_netloc_delim c)) auth = true).
  { apply (forallb_str_impl plain_netloc_char); [|exact Hplain].
    intros c Hc. apply plain_netloc_char_spec in Hc as (_ & -> & _). reflexivity. }
  assert (Hnolb : forallb_str (fun c => negb (Ascii.eqb "[" c)) auth = true).
  { apply (forallb_str_impl plain_netloc_char); [|exact Hplain].
    intros c Hc. apply plain_netloc_char_spec in Hc as (_ & _ & -> & _). reflexivity. }
  assert (Hnorb : forallb_str (fun c => negb (Ascii.eqb "]" c)) auth = true).
  { apply (forallb_str_impl plain_netloc_char); [|exact Hplain].
    intros c Hc. apply plain_netloc_char_spec in Hc as (_ & _ & _ & -> & _). reflexivity. }
  assert (Hascii : forallb_str (fun c => Nat.ltb (code c) 128) auth = true).
  { apply (forallb_str_impl plain_netloc_char); [|exact Hplain].
    intros c Hc. now apply plain_netloc_char_spec in Hc as (_ & _ & _ & _ & ->). }
  set (rest := (auth ++ String "/" (remove is_unsafe_byte path))%string).
  assert (H1 : lstrip is_c0_control_or_space ("https://" ++ auth ++ "/" ++ path)%string
               = ("https://" ++ auth ++ "/" ++ path)%string) by reflexivity.
  assert (H2 : remove is_unsafe_byte ("https://" ++ auth ++ "/" ++ path)%string
               = ("https://" ++ rest)%string).
  { rewrite (remove_keep is_unsafe_byte "https://" _ eq_refl).
    rewrite (remove_keep is_unsafe_byte auth _ Hsafe). reflexivity. }
  assert (H3 : strip_scheme ("https://" ++ rest)%string = String "/" (String "/" rest))
    by reflexivity.
  cbv zeta. rewrite H1, H2, H3. unfold rest.
  rewrite (break_keep is_netloc_delim auth "/" _ Hnodelim eq_refl). cbn [fst].
  unfold existsb_str. rewrite Hnolb, Hnorb, Hascii. reflexivity.
Qed.

(** C8, as the reclassifier behaves. Its matcher has no default: it returns
    [None] exactly when no rule shares a tag with the item, and the id of
    the first rule that does otherwise. For an unmatched item the
    suggestion is the first tag when the item has tags; else what
    [urlparse] gives as the network location of the link, which is the
    host together with any user information and port, with a leading
    ["www."] removed, when that is not empty; else [None]; and a link that
    [urlparse] refuses makes [suggest_new_collection] raise. An item with no
    tags and the link [https://www.host.com/x] is unmatched under any rules,
    with suggestion [host.com]; with a port the port stays. *)
Theorem reclassifier_suggestion (tags : list string) (rules : list rule) (link : string) :
  (guess_collection tags rules = None <-> Forall (fun r => ~ intersects tags r) rules)
  /\ (forall pre r post,
        rules = pre ++ r :: post ->
        Forall (fun r' => ~ intersects tags r') pre -> intersects tags r ->
        guess_collection tags rules = Some (rule_collection_id r))
  /\ (forall t rest, tags = t :: rest -> suggest_new_collection tags link = Ok (Some t))
  /\ (tags = [] ->
      suggest_new_collection tags link
      = match urlparse_netloc link with
        | Ok netloc =>
            Ok (if bool_decide (strip_www netloc = "") then None
                else Some (strip_www netloc))
        | Raise e => Raise e
        end)
  /\ (forall auth path,
        forallb_str plain_netloc_char auth = true ->
        urlparse_netloc ("https://" ++ auth ++ "/" ++ path)%string = Ok auth)
  /\ (forall rest, strip_www ("www." ++ rest)%string = rest)
  /\ (forall host, (forall rest, host <> ("www." ++ rest)%string) -> strip_www host = host)
  /\ (forall id,
        urlparse_netloc "https://www.host.com/x" = Ok "www.host.com"
        /\ guess_collection [] rules = None
        /\ suggest_new_collection [] "https://www.host.com/x" = Ok (Some "host.com")
        /\ classify {| item_id := id; item_tags := Some [];
                       item_link := Some "https://www.host.com/x" |} rules
           = Ok (Unmatched (Some "host.com"))
        /\ suggest_new_collection [] "https://www.host.com:8080/x"
           = Ok (Some "host.com:8080")
        /\ suggest_new_collection [] "http://[" = Raise (ValueError "Invalid IPv6 URL")).
Proof.
  split; [apply guess_collection_none|].
  split; [intros pre r post -> Hpre Hr; now apply guess_collection_first|].
  split; [intros t rest ->; reflexivity|].
  split.
  { intros ->. unfold suggest_new_collection.
    destruct (urlparse_netloc link) as [netloc|e]; [|reflexivity].
    destruct (strip_www netloc); reflexivity. }
  split; [apply urlparse_netloc_https|].
  split; [apply strip_www_prefix|].
  split; [apply strip_www_other|].
  intros id.
  assert (Hnone : guess_collection [] rules = None).
  { apply guess_collection_none, Forall_forall. intros r _ (t & _ & Ht).
    now apply not_elem_of_nil in Ht. }
  split; [vm_compute; reflexivity|]. split; [exact Hnone|].
  split; [vm_compute; reflexivity|].
  split; [unfold classify; simpl; rewrite Hnone; vm_compute; reflexivity|].
  split; vm_compute; reflexivity.
Qed.

End Reclassifier.

(** C8, as stated, fails: the suggestion is made from the whole network
    location, not from the host. For a link with a port the port stays in
    the suggestion, and with user information nothing is stripped, where
    the URL host without ["www."] is [host.com]; and a link that [urlparse]
    refuses gives an exception, not "none". *)
Lemma suggestion_keeps_port_and_userinfo :
  (forall I : Interpreter,
      @suggest_collections.suggest_new_collection I [] "https://www.host.com:8080/x"
      = Ok (Some "host.com:8080")
      /\ @suggestion_as_specified I [] "https://www.host.com:8080/x" = Some "host.com")
  /\ (forall I : Interpreter,
        @suggest_collections.suggest_new_collection I [] "https://user:pw@www.host.com/x"
        = Ok (Some "user:pw@www.host.com")
        /\ @suggestion_as_specified I [] "https://user:pw@www.host.com/x" = Some "host.com")
  /\ (forall I : Interpreter,
        @suggest_collections.suggest_new_collection I [] "http://["
        = Raise (ValueError "Invalid IPv6 URL")
        /\ @suggestion_as_specified I [] "http://[" = None).
Proof. repeat split; vm_compute; reflexivity. Qed.

(** * Further properties of the two scripts *)

(** ** Tags of a record *)

Section TagSets.
Context `{Interpreter}.

Lemma split_app (sep : ascii) (a b : string) :
  split sep (a ++ String sep b)%string = split sep a ++ split sep b.
Proof.
  induction a as [|c a IH]; simpl.
  - now rewrite Ascii.eqb_refl.
  - destruct (Ascii.eqb c sep); [now rewrite IH|].
    rewrite IH. pose proof (split_not_nil sep a) as Hne.
    destruct (split sep a) as [|t r]; [contradiction | reflexivity].
Qed.

(** Two results of [normalize_tags] with the same members are the same
    list. *)
Lemma normalize_tags_ext (s1 s2 : string) (lc1 lc2 tr1 tr2 : bool) (tag1 tag2 : string) :
  (forall t, t ∈ normalize_tags s1 lc1 tr1 tag1 <-> t ∈ normalize_tags s2 lc2 tr2 tag2) ->
  normalize_tags s1 lc1 tr1 tag1 = normalize_tags s2 lc2 tr2 tag2.
Proof.
  intros Hmem. rewrite (normalize_tags_unfold s2). apply sorted_unique.
  - rewrite normalize_tags_unfold. apply StronglySorted_le_sorted.
  - rewrite normalize_tags_unfold. apply NoDup_sorted.
  - intros t. rewrite Hmem, normalize_tags_unfold. apply elem_of_sorted.
Qed.

(** The order of the tags in the raw string and their repetition do not
    matter: swapping two parts of the string, or giving a part twice, gives
    the same tags, and the tags of two parts put together are the tags of
    either part. *)
Theorem normalize_tags_order_insensitive
    (a b : string) (lowercase toread : bool) (toread_tag : string) :
  normalize_tags (a ++ " " ++ b)%string lowercase toread toread_tag
  = normalize_tags (b ++ " " ++ a)%string lowercase toread toread_tag
  /\ normalize_tags (a ++ " " ++ a)%string lowercase toread toread_tag
     = normalize_tags a lowercase toread toread_tag
  /\ (forall t,
        t ∈ normalize_tags (a ++ " " ++ b)%string lowercase toread toread_tag
        <-> t ∈ normalize_tags a lowercase toread toread_tag
            \/ t ∈ normalize_tags b lowercase toread toread_tag).
Proof.
  assert (Hsplit : forall x y u,
            u ∈ split " "%char (x ++ " " ++ y)%string
            <-> u ∈ split " "%char x \/ u ∈ split " "%char y).
  { intros x y u. change (x ++ " " ++ y)%string with (x ++ String " " y)%string.
    rewrite split_app. apply elem_of_app. }
  split; [|split].
  - apply normalize_tags_ext. intros t. rewrite !elem_of_normalize_tags.
    split; intros (u & Hu & ->); exists u; (split; [|reflexivity]);
      rewrite Hsplit in *; tauto.
  - apply normalize_tags_ext. intros t. rewrite !elem_of_normalize_tags.
    split; intros (u & Hu & ->); exists u; (split; [|reflexivity]);
      rewrite Hsplit in *; tauto.
  - intros t. rewrite !elem_of_normalize_tags. split.
    + intros (u & Hu & ->). rewrite Hsplit in Hu.
      destruct Hu as [[[Hu|Hu] Hne]|Hinj].
      * left. exists u. tauto.
      * right. exists u. tauto.
      * left. exists u. tauto.
    + intros [(u & Hu & ->)|(u & Hu & ->)]; exists u; rewrite Hsplit; tauto.
Qed.

(** When lowercasing keeps a non-empty string non-empty, as [str.lower]
    does, no tag of the result is the empty string. *)
Theorem normalize_tags_no_empty_tag
    (tag_str : string) (lowercase toread : bool) (toread_tag : string) :
  (forall s, lower s = "" -> s = "") ->
  "" ∉ normalize_tags tag_str lowercase toread toread_tag.
Proof.
  intros Hlower Hin. apply elem_of_normalize_tags in Hin as (u & Hu & Heq).
  assert (Hne : u <> "") by (destruct Hu as [[_ Hne]|(_ & Hne & ->)]; exact Hne).
  destruct lowercase; [apply Hne, Hlower; congruence | congruence].
Qed.

End TagSets.

Lemma normalize_tags_no_empty_tag_witness :
  (forall s, @lower ascii_interpreter s = "" -> s = "")
  /\ "" ∉ @normalize_tags ascii_interpreter "  Work   project-x " true true "toread".
Proof.
  assert (Hl : forall s, @lower ascii_interpreter s = "" -> s = "")
    by (intros [|c s]; [reflexivity | discriminate]).
  split; [exact Hl|].
  exact (@normalize_tags_no_empty_tag ascii_interpreter "  Work   project-x " true true
           "toread" Hl).
Defined.

(** ** Payload of a record *)

Section Payloads.
Context `{Interpreter}.

Lemma guess_collection_from_tags_range (tags : list string) (rules : list rule)
    (default_id : Z) :
  guess_collection_from_tags tags rules default_id = default_id
  \/ exists r, r ∈ rules /\ guess_collection_from_tags tags rules default_id
                             = rule_collection_id r.
Proof.
  induction rules as [|r rules IH]; simpl; [now left|].
  destruct (rule_matches tags r).
  - right. exists r. split; [constructor | reflexivity].
  - destruct IH as [IH|(r' & Hin & IH)]; [now left|].
    right. exists r'. split; [now constructor | exact IH].
Qed.

(** The payload is built exactly when the entry has an ["href"], which
    becomes its link; a missing one raises [KeyError]. In a payload the
    title is not empty unless the link is, the note and the excerpt are the
    same and neither is ever an empty string (they are left out when the
    entry has no text), likewise the two dates, the tags are strictly
    increasing, [important] tells whether ["starred"] is among them, and the
    collection is the default id, the read-later id or the id of a rule. *)
Theorem payload_invariants (e : entry) (a : args) (rules : list rule) :
  (e !! "href" = None <-> pinboard_to_raindrop_payload e a rules = Raise (KeyError "href"))
  /\ (forall p,
        pinboard_to_raindrop_payload e a rules = Ok p ->
        e !! "href" = Some (link p)
        /\ (link p <> "" -> title p <> "")
        /\ note p = excerpt p /\ note p <> Some ""
        /\ (note p = None <-> truthy_opt (e !! "extended") = false)
        /\ created p = lastUpdate p /\ created p <> Some ""
        /\ StronglySorted str_lt (tags p)
        /\ (important p = true <-> "starred" ∈ tags p)
        /\ (collection p = collection_id a
            \/ readlater_collection_id a = Some (collection p)
            \/ exists r, r ∈ rules /\ collection p = rule_collection_id r)).
Proof.
  unfold pinboard_to_raindrop_payload.
  destruct (e !! "href") as [href|] eqn:Hh.
  - split; [split; discriminate|].
    intros p Hp. injection Hp as <-. simpl.
    split; [reflexivity|].
    split.
    { intros Hne. destruct (e !! "description") as [[|c d]|]; simpl; congruence. }
    split; [reflexivity|].
    split; [destruct (e !! "extended") as [[|c x]|]; simpl; congruence|].
    split.
    { destruct (e !! "extended") as [[|c x]|]; simpl; split; congruence. }
    split; [reflexivity|].
    split; [destruct (e !! "time") as [[|c x]|]; simpl; congruence|].
    split; [apply sorted_strict|].
    split; [rewrite contains_In; symmetry; apply list_elem_of_In|].
    unfold select_collection_id.
    destruct (readlater_collection_id a) as [rid|];
      [destruct (bool_decide _); [right; left; reflexivity|]|];
      (match goal with
       | |- context [guess_collection_from_tags ?t ?r ?d] =>
           destruct (guess_collection_from_tags_range t r d) as [Hg|(r' & Hr & Hg)];
           rewrite Hg; [left; reflexivity | right; right; eauto]
       end).
  - split; [split; reflexivity|]. discriminate.
Qed.

(** An entry marked [toread] carries the read-later tag, lowercased with
    the others, whenever that tag is not empty, and goes to the read-later
    collection when one is configured. An entry not so marked gets neither:
    its tags are those of its raw string and its collection is the
    matcher's. *)
Theorem toread_entry_carries_tag (e : entry) (a : args) (rules : list rule) (p : payload) :
  pinboard_to_raindrop_payload e a rules = Ok p ->
  (e !! "toread" = Some "yes" ->
     (toread_tag a <> "" ->
      (if lowercase_tags a then lower (toread_tag a) else toread_tag a) ∈ tags p)
     /\ (forall rid, readlater_collection_id a = Some rid -> collection p = rid))
  /\ (e !! "toread" <> Some "yes" ->
      tags p = normalize_tags (default "" (e !! "tags")) (lowercase_tags a) false ""
      /\ collection p = guess_collection_from_tags (tags p) rules (collection_id a)).
Proof.
  unfold pinboard_to_raindrop_payload.
  destruct (e !! "href") as [href|]; [|discriminate].
  intros Hp. injection Hp as <-. simpl. split.
  - intros Hyes. rewrite (bool_decide_eq_true_2 _ Hyes). split.
    + intros Hne. apply elem_of_normalize_tags. exists (toread_tag a). auto.
    + intros rid Hrid. unfold select_collection_id.
      now rewrite Hrid, (bool_decide_eq_true_2 _ Hyes).
  - intros Hno. rewrite (bool_decide_eq_false_2 _ Hno). split.
    + apply normalize_tags_ext. intros t. rewrite !elem_of_normalize_tags.
      split; intros (u & Hu & ->); exists u; (split; [|reflexivity]);
        destruct Hu as [Hu|(Hf & _)]; try discriminate; now left.
    + unfold select_collection_id. rewrite (bool_decide_eq_false_2 _ Hno).
      now destruct (readlater_collection_id a).
Qed.

End Payloads.

Lemma toread_entry_carries_tag_witness :
  let p := {| link := "https://later.example"; title := "https://later.example";
              tags := ["later"; "read"]; important := false; collection := 42;
              note := None; excerpt := None; created := None; lastUpdate := None |} in
  @pinboard_to_raindrop_payload ascii_interpreter Sample.later_post
    (Sample.smoke_options 42 "later") [Sample.read_rule] = Ok p
  /\ "later" ∈ tags p /\ collection p = 42.
Proof.
  cbv zeta.
  assert (Hp : @pinboard_to_raindrop_payload ascii_interpreter Sample.later_post
                 (Sample.smoke_options 42 "later") [Sample.read_rule]
               = Ok {| link := "https://later.example"; title := "https://later.example";
                       tags := ["later"; "read"]; important := false; collection := 42;
                       note := None; excerpt := None; created := None;
                       lastUpdate := None |})
    by (vm_compute; reflexivity).
  split; [exact Hp|].
  destruct (proj1 (@toread_entry_carries_tag ascii_interpreter _ _ _ _ Hp) eq_refl)
    as [Htag Hcol].
  split; [apply Htag; discriminate | apply Hcol; reflexivity].
Defined.

(** ** Matching, in both scripts *)

Section Matching.
Import suggest_collections.

(** The migration's matcher is the reclassifier's with the default put in
    for "no match". *)
Theorem matchers_agree (tags : list string) (rules : list rule) (default_id : Z) :
  guess_collection_from_tags tags rules default_id
  = default default_id (guess_collection tags rules).
Proof.
  induction rules as [|r rules IH]; simpl; [reflexivity|].
  destruct (rule_matches tags r); [reflexivity | exact IH].
Qed.

Lemma rule_matches_no_tags (tags : list string) (r : rule) :
  has_tags r = false -> rule_matches tags r = false.
Proof. unfold has_tags, rule_matches. destruct (rule_tags r); [reflexivity | discriminate]. Qed.

Lemma rule_matches_nil (r : rule) : rule_matches [] r = false.
Proof. unfold rule_matches. induction (rule_tags r); [reflexivity | exact IHl]. Qed.

(** A rule with an empty tag list, which the loaders accept, never matches:
    dropping such rules changes no result of either matcher. A record with
    no tags matches no rule at all. *)
Theorem rules_without_tags_never_match (tags : list string) (rules : list rule)
    (default_id : Z) :
  guess_collection_from_tags tags (List.filter has_tags rules) default_id
  = guess_collection_from_tags tags rules default_id
  /\ guess_collection tags (List.filter has_tags rules) = guess_collection tags rules
  /\ guess_collection_from_tags [] rules default_id = default_id
  /\ guess_collection [] rules = None.
Proof.
  assert (Hg : guess_collection tags (List.filter has_tags rules)
               = guess_collection tags rules).
  { induction rules as [|r rules IH]; simpl; [reflexivity|].
    destruct (has_tags r) eqn:Hr; simpl.
    - rewrite IH. reflexivity.
    - now rewrite (rule_matches_no_tags tags r Hr). }
  assert (Hn : guess_collection [] rules = None).
  { clear Hg. induction rules as [|r rules IH]; simpl; [reflexivity|].
    rewrite rule_matches_nil. exact IH. }
  split; [|split; [exact Hg | split; [|exact Hn]]].
  - clear Hg Hn. induction rules as [|r rules IH]; simpl; [reflexivity|].
    destruct (has_tags r) eqn:Hr; simpl.
    + rewrite IH. reflexivity.
    + now rewrite (rule_matches_no_tags tags r Hr).
  - clear Hg Hn. induction rules as [|r rules IH]; simpl; [reflexivity|].
    rewrite rule_matches_nil. exact IH.
Qed.

(** The matcher looks at the tags as a set: two tag lists with the same
    members get the same collection. *)
Theorem matcher_depends_on_tag_set (tags tags' : list string) (rules : list rule)
    (default_id : Z) :
  (forall t, t ∈ tags <-> t ∈ tags') ->
  guess_collection_from_tags tags rules default_id
  = guess_collection_from_tags tags' rules default_id.
Proof.
  intros Hsame.
  assert (Hm : forall r, rule_matches tags r = rule_matches tags' r).
  { intros r. destruct (rule_matches tags' r) eqn:Hr.
    - apply rule_matches_intersects in Hr as (t & Ht & Hin).
      apply rule_matches_intersects. exists t. split; [exact Ht | now apply Hsame].
    - apply rule_matches_not_intersects in Hr. apply rule_matches_not_intersects.
      intros (t & Ht & Hin). apply Hr. exists t. split; [exact Ht | now apply Hsame]. }
  induction rules as [|r rules IH]; simpl; [reflexivity|].
  now rewrite Hm, IH.
Qed.

End Matching.

Lemma matcher_depends_on_tag_set_witness :
  (forall t : string, t ∈ ["work"; "x"] <-> t ∈ ["x"; "work"; "x"])
  /\ guess_collection_from_tags ["work"; "x"] [Sample.work_rule; Sample.read_rule] 0
     = guess_collection_from_tags ["x"; "work"; "x"] [Sample.work_rule; Sample.read_rule] 0.
Proof.
  assert (Hs : forall t : string, t ∈ ["work"; "x"] <-> t ∈ ["x"; "work"; "x"])
    by (intros t; rewrite !elem_of_cons; tauto).
  split; [exact Hs|].
  exact (matcher_depends_on_tag_set ["work"; "x"] ["x"; "work"; "x"]
           [Sample.work_rule; Sample.read_rule] 0 Hs).
Defined.

(** ** Loading the rules *)

Section Loading.
Context `{Interpreter}.

(** Both scripts read a map file in the same way: the two loaders are the
    same code. *)
Lemma loaders_agree (data : json) :
  suggest_collections.load_collection_map data
  = pinboard_to_raindrop.load_collection_map (Some data).
Proof. destruct data; reflexivity. Qed.

Lemma load_loop_prefix (pre : list json) (rs : list rule) :
  Forall2 loads_to pre rs ->
  forall rest idx acc,
    load_collection_map_loop idx (pre ++ rest) acc
    = load_collection_map_loop (idx + length pre) rest (acc ++ rs).
Proof.
  induction 1 as [|e r pre rs He _ IH]; intros rest idx acc; simpl.
  - now rewrite Nat.add_0_r, app_nil_r.
  - destruct He as (o & cid & tags & ts & n & -> & Hcid & Htags & Hts & Hint & ->).
    rewrite Hcid, Htags, Hts, Hint, IH, <- app_assoc.
    simpl. f_equal. lia.
Qed.

(** The loader stops at the first bad entry and names it by its position:
    after entries that load, an entry that is not an object, lacks a key or
    has tags that are not a list of strings raises [ValueError] with that
    entry's index in the message, and an id that [int] refuses raises what
    [int] raises; the entries after it are not looked at. *)
Theorem load_collection_map_first_error
    (pre : list json) (rs : list rule) (bad : json) (post : list json) :
  Forall2 loads_to pre rs ->
  let run := load_collection_map (Some (JList (pre ++ bad :: post))) in
  let rule_n := ("rule " ++ str_of_nat (length pre))%string in
  ((forall o, bad <> JObj o) ->
     run = Raise (ValueError (rule_n ++ " must be an object")))
  /\ (forall o, bad = JObj o -> o !! "collection_id" = None \/ o !! "tags" = None ->
        run = Raise (ValueError (rule_n ++ " must include collection_id and tags")))
  /\ (forall o cid tags,
        bad = JObj o -> o !! "collection_id" = Some cid -> o !! "tags" = Some tags ->
        str_list tags = None ->
        run = Raise (ValueError (rule_n ++ " tags must be a list of strings")))
  /\ (forall o cid tags ts e,
        bad = JObj o -> o !! "collection_id" = Some cid -> o !! "tags" = Some tags ->
        str_list tags = Some ts -> int cid = Raise e ->
        run = Raise e).
Proof.
  intros Hpre. cbv zeta. unfold load_collection_map.
  rewrite (load_loop_prefix pre rs Hpre). simpl.
  split; [|split; [|split]].
  - intros Hno. destruct bad; try reflexivity. now destruct (Hno o).
  - intros o -> [Hc|Ht].
    + now rewrite Hc.
    + rewrite Ht. now destruct (o !! "collection_id").
  - intros o cid tags -> Hc Ht Hs. now rewrite Hc, Ht, Hs.
  - intros o cid tags ts e -> Hc Ht Hs Hi. now rewrite Hc, Ht, Hs, Hi.
Qed.

End Loading.

Lemma load_collection_map_first_error_witness :
  let good := JObj {[ "collection_id" := JInt 555; "tags" := JList [JStr "work"] ]} in
  Forall2 (@loads_to ascii_interpreter) [good]
    [ {| rule_collection_id := 555; rule_tags := ["work"]; rule_name := JNull |} ]
  /\ @load_collection_map ascii_interpreter (Some (JList [good; JStr "oops"; JNull]))
     = Raise (ValueError "rule 1 must be an object").
Proof.
  cbv zeta.
  assert (Hgood : Forall2 (@loads_to ascii_interpreter)
                    [JObj {[ "collection_id" := JInt 555; "tags" := JList [JStr "work"] ]}]
                    [ {| rule_collection_id := 555; rule_tags := ["work"];
                         rule_name := JNull |} ]).
  { constructor; [|constructor].
    exists {[ "collection_id" := JInt 555; "tags" := JList [JStr "work"] ]},
      (JInt 555), (JList [JStr "work"]), ["work"], 555.
    repeat split; vm_compute; reflexivity. }
  split; [exact Hgood|].
  apply (proj1 (@load_collection_map_first_error ascii_interpreter _ _ (JStr "oops") [JNull]
                  Hgood)).
  discriminate.
Defined.

(** ** The three requests *)

Section RequestOutcomes.
Context {W : Type} `{Client W}.
Local Open Scope eff_scope.

(** The lookup sends the search and nothing else. An answer with a good
    status and at least one item gives its first item with that item's id;
    an answer with a good status and no item, an answer with an error
    status and an HTTP error of the request give [(None, None)]; any other
    exception of the request passes through. So an item returned was the
    head of a good answer, and the lookup never raises an HTTP error. *)
Theorem lookup_sends_one_search (link : string) (w : W) :
  fst (find_existing_raindrop link w) = fst (search_request link w)
  /\ (forall w' r it rest,
        search_request link w = (w', Ok r) -> status_ok r = true ->
        body r = it :: rest ->
        find_existing_raindrop link w = (w', Ok (Some it, Some (item_id it))))
  /\ (forall w' r,
        search_request link w = (w', Ok r) ->
        status_ok r = false \/ body r = [] ->
        find_existing_raindrop link w = (w', Ok (None, None)))
  /\ (forall w' e,
        search_request link w = (w', Raise e) ->
        find_existing_raindrop link w
        = (w', if HTTPError e then Ok (None, None) else Raise e))
  /\ (forall e, snd (find_existing_raindrop link w) = Raise e ->
        HTTPError e = false /\ snd (search_request link w) = Raise e)
  /\ (forall it eid, snd (find_existing_raindrop link w) = Ok (Some it, eid) ->
        eid = Some (item_id it)
        /\ exists r, snd (search_request link w) = Ok r
                     /\ status_ok r = true /\ head (body r) = Some it).
Proof.
  pose proof (find_existing_raindrop_cases link w) as Hc.
  destruct (search_request link w) as [w0 [r0|e0]]; rewrite Hc; simpl.
  - split; [reflexivity|].
    split; [intros w' r it rest Heq Hok Hb; inversion Heq; subst;
            now rewrite Hok, Hb|].
    split; [intros w' r Heq [Hok|Hb]; inversion Heq; subst;
            [now rewrite Hok | rewrite Hb; now destruct (status_ok r)]|].
    split; [discriminate|]. split; [discriminate|].
    intros it eid Hf. destruct (status_ok r0) eqn:Hok; [|discriminate].
    destruct (body r0) as [|it' ?] eqn:Hb; [discriminate|].
    injection Hf as -> <-. split; [reflexivity|]. exists r0. rewrite Hb. auto.
  - split; [reflexivity|]. split; [discriminate|]. split; [discriminate|].
    split; [intros w' e Heq; inversion Heq; reflexivity|].
    destruct (HTTPError e0) eqn:He.
    + split; discriminate.
    + split; [|discriminate]. intros e' He'. injection He' as <-. auto.
Qed.

Lemma status_result {A : Type} (m : M W (response A)) (w : W) :
  (resp <- m ;;
   try_except (raise_for_status resp ;;; ret true) HTTPStatusError_only (ret false)) w
  = match m w with
    | (w', Ok r) => (w', Ok (status_ok r))
    | (w', Raise e) => (w', Raise e)
    end.
Proof.
  unfold bind at 1. destruct (m w) as [w' [r|e]]; [|reflexivity].
  unfold try_except, bind, raise_for_status, ret, raise.
  destruct (status_ok r); reflexivity.
Qed.

(** [create_raindrop] and [move_raindrop] return whether the answer has a
    good status: an error status gives [False], never an exception. When the
    request itself raises, a transport failure included, the exception is
    not caught and passes to the caller. *)
Theorem write_requests_report_status (p : payload) (item_id collection_id : Z) (w : W) :
  create_raindrop p w
  = match client_post "/raindrop" p w with
    | (w', Ok r) => (w', Ok (status_ok r))
    | (w', Raise e) => (w', Raise e)
    end
  /\ suggest_collections.move_raindrop item_id collection_id w
     = match client_put ("/raindrop/" ++ str_of_Z item_id)%string
               {[ "collection" := JObj {[ "$id" := JInt collection_id ]} ]} w with
       | (w', Ok r) => (w', Ok (status_ok r))
       | (w', Raise e) => (w', Raise e)
       end.
Proof. split; apply status_result. Qed.

(** The delta of an update, key by key. *)
Lemma update_body_lookup (p : payload) (existing : item) (merge : bool) :
  let b := update_body p existing merge in
  b !! "tags"
  = (if merge
     then Some (JList (JStr <$> sorted (set (default [] (item_tags existing)) ∪ set (tags p))))
     else None)
  /\ b !! "note" = (if truthy_opt (note p) then JStr <$> note p else None)
  /\ b !! "excerpt" = (if truthy_opt (excerpt p) then JStr <$> excerpt p else None)
  /\ b !! "important" = (if important p then Some (JBool true) else None)
  /\ (forall k, k <> "tags" -> k <> "note" -> k <> "excerpt" -> k <> "important" ->
        b !! k = None).
Proof.
  cbv zeta. unfold update_body.
  destruct merge, (note p) as [[|c n]|], (excerpt p) as [[|c' x]|], (important p);
    simpl; repeat split; try reflexivity;
    intros k H1 H2 H3 H4; rewrite ?lookup_insert_ne by congruence; apply lookup_empty.
Qed.

(** An update never clears a field: the note and the excerpt are in the
    delta exactly when the payload has a non-empty one, and then with that
    text; [important] is there exactly when the payload is important, and
    then it is [True], never [False]; the tags are there exactly when
    merging; and the delta has no other key. *)
Theorem update_body_fields (p : payload) (existing : item) (merge : bool) :
  let b := update_body p existing merge in
  (forall v, b !! "note" = Some v <-> exists n, note p = Some n /\ n <> "" /\ v = JStr n)
  /\ (forall v, b !! "excerpt" = Some v
               <-> exists x, excerpt p = Some x /\ x <> "" /\ v = JStr x)
  /\ (forall v, b !! "important" = Some v <-> important p = true /\ v = JBool true)
  /\ (is_Some (b !! "tags") <-> merge = true)
  /\ dom b ⊆ ({[ "tags"; "note"; "excerpt"; "important" ]} : gset string).
Proof.
  cbv zeta. pose proof (update_body_lookup p existing merge) as (Ht & Hn & He & Hi & Hk).
  cbv zeta in *. rewrite Ht, Hn, He, Hi. clear Ht Hn He Hi.
  split; [|split; [|split; [|split]]].
  - intros v. destruct (note p) as [[|c n]|]; simpl; split;
      try discriminate; try (intros (n0 & Hn0 & Hne & _); congruence).
    + intros Hv. injection Hv as <-. eexists. split; [reflexivity|]. split; [discriminate|reflexivity].
    + intros (n0 & Hn0 & _ & ->). now injection Hn0 as <-.
  - intros v. destruct (excerpt p) as [[|c n]|]; simpl; split;
      try discriminate; try (intros (n0 & Hn0 & Hne & _); congruence).
    + intros Hv. injection Hv as <-. eexists. split; [reflexivity|]. split; [discriminate|reflexivity].
    + intros (n0 & Hn0 & _ & ->). now injection Hn0 as <-.
  - intros v. destruct (important p); split.
    + intros Hv. injection Hv as <-. auto.
    + intros (_ & ->). reflexivity.
    + discriminate.
    + intros (Hf & _). discriminate.
  - destruct merge; split; try reflexivity; try discriminate; eauto.
    intros [x Hx]. discriminate.
  - intros k Hk'. apply elem_of_dom in Hk' as [v Hv].
    destruct (decide (k = "tags")) as [->|H1]; [set_solver|].
    destruct (decide (k = "note")) as [->|H2]; [set_solver|].
    destruct (decide (k = "excerpt")) as [->|H3]; [set_solver|].
    destruct (decide (k = "important")) as [->|H4]; [set_solver|].
    rewrite (Hk k H1 H2 H3 H4) in Hv. discriminate.
Qed.

(** A merge never drops a tag: the tags it sends are the existing tags and
    the payload's tags together, each once, in increasing order. *)
Theorem merge_keeps_every_tag (p : payload) (existing : item) :
  exists ts,
    update_body p existing true !! "tags" = Some (JList (JStr <$> ts))
    /\ StronglySorted str_lt ts
    /\ (forall t, t ∈ ts <-> t ∈ default [] (item_tags existing) \/ t ∈ tags p).
Proof.
  exists (sorted (set (default [] (item_tags existing)) ∪ set (tags p))).
  split; [apply (update_body_lookup p existing true)|].
  split; [apply sorted_strict|].
  intros t. now rewrite elem_of_sorted, elem_of_union, !elem_of_set.
Qed.

(** The update is skipped, with [True] returned and nothing sent, exactly
    when there is nothing in the delta: not merging, no non-empty note or
    excerpt, and not important. In every other case the delta is sent to the
    record's address and the status of the answer is the result. *)
Theorem update_raindrop_outcomes (raindrop_id : Z) (p : payload) (existing : item)
    (merge : bool) (w : W) :
  let b := update_body p existing merge in
  (b = ∅ <-> merge = false /\ truthy_opt (note p) = false
             /\ truthy_opt (excerpt p) = false /\ important p = false)
  /\ (b = ∅ -> update_raindrop raindrop_id p existing merge w = (w, Ok true))
  /\ (b <> ∅ ->
      update_raindrop raindrop_id p existing merge w
      = match client_put ("/raindrop/" ++ str_of_Z raindrop_id)%string b w with
        | (w', Ok r) => (w', Ok (status_ok r))
        | (w', Raise e) => (w', Raise e)
        end).
Proof.
  cbv zeta. split; [|split].
  - pose proof (update_body_lookup p existing merge) as (Ht & Hn & He & Hi & _).
    cbv zeta in *. split.
    + intros Hb. rewrite Hb in *. rewrite lookup_empty in *.
      destruct merge; [discriminate|].
      destruct (truthy_opt (note p)) eqn:Hnp;
        [destruct (note p); [discriminate | discriminate]|].
      destruct (truthy_opt (excerpt p)) eqn:Hep;
        [destruct (excerpt p); [discriminate | discriminate]|].
      destruct (important p); [discriminate | auto].
    + intros (-> & Hnp & Hep & Hip). unfold update_body. rewrite Hip.
      destruct (note p) as [n|]; simpl in Hnp; [rewrite Hnp|];
        (destruct (excerpt p) as [x|]; simpl in Hep; [rewrite Hep|]); reflexivity.
  - intros Hb. unfold update_raindrop. cbv zeta. now rewrite bool_decide_eq_true_2.
  - intros Hb. unfold update_raindrop. cbv zeta. rewrite bool_decide_eq_false_2 by exact Hb.
    apply status_result.
Qed.

End RequestOutcomes.

(** ** Counters and flow of the migration loop *)

Section LoopFacts.
Context `{Interpreter} {W : Type} `{Client W}.
Local Open Scope eff_scope.

Lemma main_body_unfold (a : args) (rules : list rule) (st : loop_state) (e : entry) (w : W) :
  main_body a rules st e w
  = if limit_reached a (st_stats st) then (w, Ok Break)
    else match e !! "href" with
         | None => (w, Ok (Next st))
         | Some href =>
             if negb (truthy_str href) then (w, Ok (Next st))
             else if bool_decide (href ∈ seen_links st)
             then (w, Ok (Next {| st_stats := incr_duplicate_input (st_stats st);
                                  seen_links := seen_links st |}))
             else
               match pinboard_to_raindrop_payload e a rules with
               | Raise ex => (w, Raise ex)
               | Ok p =>
                   if dry_run a
                   then (w, Ok (Next {| st_stats := incr_processed (st_stats st);
                                        seen_links := {[ href ]} ∪ seen_links st |}))
                   else match reconcile a href p (st_stats st) w with
                        | (w', Ok s) =>
                            (w', Ok (Next {| st_stats := incr_processed s;
                                             seen_links := {[ href ]} ∪ seen_links st |}))
                        | (w', Raise ex) => (w', Raise ex)
                        end
               end
         end.
Proof.
  unfold main_body, limit_reached.
  destruct (match limit a with Some l => _ | None => false end); [reflexivity|].
  destruct (e !! "href") as [href|]; [|reflexivity].
  destruct (negb (truthy_str href)); [reflexivity|].
  destruct (bool_decide (href ∈ seen_links st)); [reflexivity|].
  unfold bind at 1, lift.
  destruct (pinboard_to_raindrop_payload e a rules) as [p|ex]; [|reflexivity].
  destruct (dry_run a); [reflexivity|].
  unfold bind, ret. destruct (reconcile a href p (st_stats st) w) as [w' [s|ex]]; reflexivity.
Qed.

Lemma main_loop_cons (a : args) (rules : list rule) (e : entry) (rest : list entry)
    (st : loop_state) (w : W) :
  main_loop a rules (e :: rest) st w
  = match main_body a rules st e w with
    | (w', Ok Break) => (w', Ok st)
    | (w', Ok (Next st')) => main_loop a rules rest st' w'
    | (w', Raise ex) => (w', Raise ex)
    end.
Proof.
  simpl. unfold bind. destruct (main_body a rules st e w) as [w' [[|st']|ex]]; reflexivity.
Qed.

(** Once the limit is reached the loop is over, whatever is left. *)
Lemma main_loop_limit_reached (a : args) (rules : list rule) (posts : list entry)
    (st : loop_state) (w : W) :
  limit_reached a (st_stats st) = true ->
  main_loop a rules posts st w = (w, Ok st).
Proof.
  intros Hl. destruct posts as [|e rest]; [reflexivity|].
  now rewrite main_loop_cons, main_body_unfold, Hl.
Qed.

(** The reconciliation counts exactly one outcome and nothing else. *)
Lemma reconcile_one_outcome (a : args) (href : string) (p : payload) (s s' : stats) (w w' : W) :
  reconcile a href p s w = (w', Ok s') ->
  outcomes s' = outcomes s + 1 /\ processed s' = processed s
  /\ duplicate_input s' = duplicate_input s /\ stats_le s s'.
Proof.
  rewrite reconcile_after_lookup.
  destruct (if skip_existing a || merge_tags a then _ else _) as [w1 [found|e]];
    [|discriminate].
  assert (Hall : forall s0, s0 = incr_skipped_existing s \/ s0 = incr_updated s
                            \/ s0 = incr_created s \/ s0 = incr_failed s ->
                 outcomes s0 = outcomes s + 1 /\ processed s0 = processed s
                 /\ duplicate_input s0 = duplicate_input s /\ stats_le s s0).
  { intros s0 [-> | [-> | [-> | ->]]]; unfold outcomes, stats_le; simpl; lia. }
  destruct (reconcile_action a (fst found) (snd found)).
  - intros Heq. inversion Heq. apply Hall. auto.
  - intros Heq. apply bind_ret_choice in Heq as [-> | ->]; apply Hall; auto.
  - intros Heq. apply bind_ret_choice in Heq as [-> | ->]; apply Hall; auto.
Qed.

(** What one iteration does to the counters. *)
Lemma main_body_counters (a : args) (rules : list rule) (st st' : loop_state) (e : entry)
    (w w' : W) :
  main_body a rules st e w = (w', Ok (Next st')) ->
  limit_reached a (st_stats st) = false
  /\ stats_le (st_stats st) (st_stats st')
  /\ processed (st_stats st') <= processed (st_stats st) + 1
  /\ processed (st_stats st') + duplicate_input (st_stats st')
     = processed (st_stats st) + duplicate_input (st_stats st)
       + (if has_href e then 1 else 0)
  /\ (if dry_run a
      then outcomes (st_stats st') = outcomes (st_stats st) /\ w' = w
      else processed (st_stats st') - outcomes (st_stats st')
           = processed (st_stats st) - outcomes (st_stats st)).
Proof.
  rewrite main_body_unfold. unfold has_href.
  destruct (limit_reached a (st_stats st)); [discriminate|].
  intros Hb. split; [reflexivity|]. revert Hb.
  destruct (e !! "href") as [href|] eqn:Hh; simpl;
    [|intros Heq; inversion Heq; subst; unfold stats_le;
      destruct (dry_run a); repeat split; lia].
  destruct (truthy_str href) eqn:Ht; simpl;
    [|intros Heq; inversion Heq; subst; unfold stats_le;
      destruct (dry_run a); repeat split; lia].
  destruct (bool_decide (href ∈ seen_links st)).
  { intros Heq. inversion Heq. subst. unfold stats_le, outcomes. simpl.
    destruct (dry_run a); repeat split; lia. }
  destruct (pinboard_to_raindrop_payload e a rules) as [p|ex]; [|discriminate].
  destruct (dry_run a).
  { intros Heq. inversion Heq. subst. unfold stats_le, outcomes. simpl. repeat split; lia. }
  destruct (reconcile a href p (st_stats st) w) as [w1 [s|ex]] eqn:Hrec; [|discriminate].
  intros Heq. inversion Heq. subst.
  apply reconcile_one_outcome in Hrec as (Ho & Hp & Hd & Hle).
  unfold stats_le, outcomes in *. simpl. repeat split; lia.
Qed.

(** Over a run no counter goes down, every entry with a link that was
    looked at is counted once, as processed or as a duplicate, and, outside
    a dry run, every processed record has exactly one outcome: created,
    updated, skipped or failed. *)
Theorem counters_add_up (a : args) (rules : list rule) (posts : list entry)
    (st st' : loop_state) (w w' : W) :
  main_loop a rules posts st w = (w', Ok st') ->
  stats_le (st_stats st) (st_stats st')
  /\ processed (st_stats st') + duplicate_input (st_stats st')
     <= processed (st_stats st) + duplicate_input (st_stats st)
        + Z.of_nat (length (List.filter has_href posts))
  /\ (limit a = None ->
      processed (st_stats st') + duplicate_input (st_stats st')
      = processed (st_stats st) + duplicate_input (st_stats st)
        + Z.of_nat (length (List.filter has_href posts)))
  /\ (dry_run a = false ->
      processed (st_stats st') - outcomes (st_stats st')
      = processed (st_stats st) - outcomes (st_stats st)).
Proof.
  revert st w. induction posts as [|e posts IH]; intros st w.
  - simpl. intros Heq. inversion Heq. subst. unfold stats_le. repeat split; lia.
  - rewrite main_loop_cons.
    destruct (main_body a rules st e w) as [w1 [[|st1]|ex]] eqn:Hbody; [| |discriminate].
    + intros Heq. inversion Heq. subst.
      rewrite main_body_unfold in Hbody.
      destruct (limit_reached a (st_stats st')) eqn:Hl.
      * unfold stats_le. repeat split; try lia.
        intros Hnone. unfold limit_reached in Hl. rewrite Hnone in Hl. discriminate.
      * exfalso. destruct (e !! "href") as [href|]; [|discriminate].
        destruct (negb (truthy_str href)); [discriminate|].
        destruct (bool_decide _); [discriminate|].
        destruct (pinboard_to_raindrop_payload e a rules); [|discriminate].
        destruct (dry_run a); [discriminate|].
        destruct (reconcile _ _ _ _ _) as [w2 [s2|ex2]]; discriminate.
    + intros Hrun. apply IH in Hrun as (Hle & Hcount & Hexact & Hout).
      apply main_body_counters in Hbody as (_ & Hle1 & _ & Hc1 & Hd1).
      simpl. unfold stats_le in *.
      destruct (has_href e); simpl length; destruct (dry_run a);
        repeat split; try lia; intros Hx; try specialize (Hexact Hx);
        try specialize (Hout Hx); try discriminate; lia.
Qed.

End LoopFacts.

Lemma counters_add_up_witness :
  let a := Sample.options true false in
  let st' := {| st_stats := {| processed := 1; created_count := 1; skipped_existing := 0;
                               updated := 0; failed := 0; duplicate_input := 1 |};
                seen_links := {[ Sample.url ]} |} in
  snd (@main_loop ascii_interpreter _ Mock.client a [] [Sample.post; Sample.post]
         initial_state (Mock.online [])) = Ok st'
  /\ processed (st_stats st') - outcomes (st_stats st') = 0.
Proof.
  cbv zeta. split; [vm_compute; reflexivity|].
  assert (Hrun : exists w',
             @main_loop ascii_interpreter _ Mock.client (Sample.options true false) []
               [Sample.post; Sample.post] initial_state (Mock.online [])
             = (w', Ok {| st_stats := {| processed := 1; created_count := 1;
                                         skipped_existing := 0; updated := 0; failed := 0;
                                         duplicate_input := 1 |};
                          seen_links := {[ Sample.url ]} |})).
  { eexists. vm_compute. reflexivity. }
  destruct Hrun as (w' & Hrun).
  exact (proj2 (proj2 (proj2 (@counters_add_up ascii_interpreter _ Mock.client _ _ _ _ _ _ _
                                Hrun))) eq_refl).
Defined.

Section LoopModes.
Context `{Interpreter} {W : Type} `{Client W}.
Local Open Scope eff_scope.

(** A dry run always ends, raises nothing, sends nothing and counts no
    outcome: only [processed] and [duplicate_input] move. *)
Theorem dry_run_is_silent (a : args) (rules : list rule) (posts : list entry)
    (st : loop_state) (w : W) :
  dry_run a = true ->
  exists st',
    main_loop a rules posts st w = (w, Ok st')
    /\ created_count (st_stats st') = created_count (st_stats st)
    /\ updated (st_stats st') = updated (st_stats st)
    /\ skipped_existing (st_stats st') = skipped_existing (st_stats st)
    /\ failed (st_stats st') = failed (st_stats st).
Proof.
  intros Hdry. revert st. induction posts as [|e posts IH]; intros st.
  - exists st. repeat split.
  - rewrite main_loop_cons, main_body_unfold.
    destruct (limit_reached a (st_stats st)); [exists st; repeat split|].
    destruct (e !! "href") as [href|] eqn:Hh; [|apply IH].
    destruct (negb (truthy_str href)); [apply IH|].
    destruct (bool_decide (href ∈ seen_links st)).
    { destruct (IH {| st_stats := incr_duplicate_input (st_stats st);
                      seen_links := seen_links st |}) as (st' & Hrun & Hrest).
      exists st'. split; [exact Hrun | exact Hrest]. }
    destruct (payload_of_entry_with_href e a rules href Hh) as (p & -> & _).
    rewrite Hdry.
    destruct (IH {| st_stats := incr_processed (st_stats st);
                    seen_links := {[ href ]} ∪ seen_links st |}) as (st' & Hrun & Hrest).
    exists st'. split; [exact Hrun | exact Hrest].
Qed.

(** A positive limit bounds the number of processed records. A negative
    one is reached at once: the run ends before the first record and sends
    nothing. *)
Theorem limit_bounds_processed (a : args) (rules : list rule) (posts : list entry)
    (l : Z) (w : W) :
  limit a = Some l ->
  (0 < l -> forall w' st',
     main_loop a rules posts initial_state w = (w', Ok st') ->
     processed (st_stats st') <= l)
  /\ (l < 0 -> main_loop a rules posts initial_state w = (w, Ok initial_state)).
Proof.
  intros Hl. split.
  - intros Hpos.
    assert (Hgen : forall posts st w w' st',
              processed (st_stats st) <= l ->
              main_loop a rules posts st w = (w', Ok st') ->
              processed (st_stats st') <= l).
    { clear posts w. induction posts as [|e posts IH]; intros st w w' st' Hle.
      - simpl. intros Heq. inversion Heq. now subst.
      - rewrite main_loop_cons.
        destruct (main_body a rules st e w) as [w1 [[|st1]|ex]] eqn:Hbody; [| |discriminate].
        + intros Heq. inversion Heq. now subst.
        + apply main_body_counters in Hbody as (Hnot & _ & Hstep & _).
          apply IH. unfold limit_reached in Hnot. rewrite Hl in Hnot.
          apply andb_false_iff in Hnot as [Hz|Hlt].
          * apply negb_false_iff, Z.eqb_eq in Hz. lia.
          * apply Z.leb_gt in Hlt. lia. }
    intros w' st'. apply Hgen. simpl. lia.
  - intros Hneg. apply main_loop_limit_reached. unfold limit_reached. rewrite Hl.
    simpl. apply andb_true_iff. split.
    + apply negb_true_iff, Z.eqb_neq. lia.
    + apply Z.leb_le. lia.
Qed.

(** A limit of zero is no limit: the run is the one without a limit. *)
Theorem limit_zero_is_unlimited (a : args) (rules : list rule) (posts : list entry)
    (st : loop_state) (w : W) :
  limit a = Some 0 ->
  main_loop a rules posts st w = main_loop (without_limit a) rules posts st w.
Proof.
  intros Hl.
  assert (Hbody : forall st e w,
            main_body a rules st e w = main_body (without_limit a) rules st e w).
  { intros st0 e w0. rewrite !main_body_unfold. unfold limit_reached. rewrite Hl. simpl.
    destruct (e !! "href") as [href|]; [|reflexivity].
    destruct (negb (truthy_str href)); [reflexivity|].
    destruct (bool_decide (href ∈ seen_links st0)); [reflexivity|].
    reflexivity. }
  revert st w. induction posts as [|e posts IH]; intros st w; [reflexivity|].
  rewrite !main_loop_cons, Hbody.
  destruct (main_body (without_limit a) rules st e w) as [w1 [[|st1]|ex]];
    [reflexivity | apply IH | reflexivity].
Qed.

(** Entries without a link, or with an empty one, leave no trace: taking
    them out of the batch gives the same run. *)
Theorem entries_without_href_are_ignored (a : args) (rules : list rule)
    (posts : list entry) (st : loop_state) (w : W) :
  main_loop a rules (List.filter has_href posts) st w = main_loop a rules posts st w.
Proof.
  revert st w. induction posts as [|e posts IH]; intros st w; [reflexivity|].
  simpl List.filter. destruct (has_href e) eqn:Hh.
  - rewrite !main_loop_cons.
    destruct (main_body a rules st e w) as [w1 [[|st1]|ex]];
      [reflexivity | apply IH | reflexivity].
  - rewrite main_loop_cons, main_body_unfold.
    destruct (limit_reached a (st_stats st)) eqn:Hl; [now apply main_loop_limit_reached|].
    unfold has_href in Hh.
    destruct (e !! "href") as [href|]; [|apply IH].
    simpl in Hh. rewrite Hh. simpl. apply IH.
Qed.

Lemma main_loop_raise (a : args) (rules : list rule) (e : entry)
    (rest : list entry) (st : loop_state) (w w' : W) (ex : exn) :
  main_body a rules st e w = (w', Raise ex) ->
  main_loop a rules (e :: rest) st w = (w', Raise ex).
Proof. intros Hbody. now rewrite main_loop_cons, Hbody. Qed.

(** A request that fails to go out while a record is created ends the whole
    run: [create_raindrop] does not catch the exception, nor does the loop,
    and the entries after that record are not looked at. Shown for a new
    link with both [skip_existing] and [merge_tags] off, where the create
    request is the first one sent. *)
Theorem request_failure_aborts_batch (a : args) (rules : list rule) (e : entry)
    (rest : list entry) (href : string) (st : loop_state) (w : W) (ex : exn) :
  e !! "href" = Some href -> href <> "" -> href ∉ seen_links st ->
  limit a = None -> dry_run a = false ->
  skip_existing a = false -> merge_tags a = false ->
  (forall p, exists w', client_post "/raindrop" p w = (w', Raise ex)) ->
  exists w', main_loop a rules (e :: rest) st w = (w', Raise ex).
Proof.
  intros Hh Hne Hnew Hl Hdry Hs Hm Hpost.
  destruct (payload_of_entry_with_href e a rules href Hh) as (p & Hp & _).
  destruct (Hpost p) as (w' & Hw'). exists w'.
  apply main_loop_raise.
  rewrite main_body_unfold. unfold limit_reached. rewrite Hl, Hh.
  apply truthy_str_true in Hne. rewrite Hne. simpl.
  rewrite bool_decide_eq_false_2 by exact Hnew.
  rewrite Hp, Hdry, reconcile_after_lookup, Hs, Hm. simpl.
  unfold bind, create_raindrop, bind. now rewrite Hw'.
Qed.

End LoopModes.

Lemma dry_run_is_silent_witness :
  let a := {| collection_id := 0; readlater_collection_id := None; toread_tag := "toread";
              lowercase_tags := false; skip_existing := true; merge_tags := true;
              limit := None; dry_run := true |} in
  dry_run a = true
  /\ exists st',
       @main_loop ascii_interpreter _ Mock.client a [] [Sample.post; Sample.post]
         initial_state (Mock.offline []) = (Mock.offline [], Ok st').
Proof.
  cbv zeta. split; [reflexivity|].
  destruct (@dry_run_is_silent ascii_interpreter _ Mock.client
              {| collection_id := 0; readlater_collection_id := None; toread_tag := "toread";
                 lowercase_tags := false; skip_existing := true; merge_tags := true;
                 limit := None; dry_run := true |} [] [Sample.post; Sample.post]
              initial_state (Mock.offline []) eq_refl) as (st' & Hrun & _).
  exists st'. exact Hrun.
Defined.

Lemma limit_bounds_processed_witness :
  let a := {| collection_id := 0; readlater_collection_id := None; toread_tag := "toread";
              lowercase_tags := false; skip_existing := false; merge_tags := false;
              limit := Some (-1); dry_run := false |} in
  limit a = Some (-1)
  /\ @main_loop ascii_interpreter _ Mock.client a [] [Sample.post] initial_state
       (Mock.online []) = (Mock.online [], Ok initial_state).
Proof.
  cbv zeta. split; [reflexivity|].
  apply (@limit_bounds_processed ascii_interpreter _ Mock.client _ [] [Sample.post] (-1));
    [reflexivity | lia].
Defined.

Lemma limit_zero_is_unlimited_witness :
  let a := {| collection_id := 0; readlater_collection_id := None; toread_tag := "toread";
              lowercase_tags := false; skip_existing := false; merge_tags := false;
              limit := Some 0; dry_run := false |} in
  limit a = Some 0
  /\ @main_loop ascii_interpreter _ Mock.client a [] [Sample.post] initial_state
       (Mock.online [])
     = @main_loop ascii_interpreter _ Mock.client (without_limit a) [] [Sample.post]
         initial_state (Mock.online []).
Proof.
  cbv zeta. split; [reflexivity|].
  apply (@limit_zero_is_unlimited ascii_interpreter _ Mock.client). reflexivity.
Defined.

Lemma request_failure_aborts_batch_witness :
  (forall p, exists w',
      @client_post _ Mock.client "/raindrop" p (Mock.offline []) = (w', Raise RequestError))
  /\ exists w',
       @main_loop ascii_interpreter _ Mock.client (Sample.options false false) []
         [Sample.post; Sample.work_post; Sample.star_post] initial_state (Mock.offline [])
       = (w', Raise RequestError).
Proof.
  assert (Hpost : forall p, exists w',
             @client_post _ Mock.client "/raindrop" p (Mock.offline [])
             = (w', Raise RequestError))
    by (intros p; eexists; reflexivity).
  split; [exact Hpost|].
  apply (@request_failure_aborts_batch ascii_interpreter _ Mock.client
           (Sample.options false false) [] Sample.post
           [Sample.work_post; Sample.star_post] Sample.url initial_state (Mock.offline [])
           RequestError);
    try reflexivity; try exact Hpost.
  - discriminate.
  - apply not_elem_of_empty.
Defined.

(** ** Fetching the unsorted items *)

Section Fetching.
Context {W : Type} `{Client W}.
Import suggest_collections.
Local Open Scope eff_scope.

Lemma fetch_unsorted_loop_step (fuel : nat) (per_page : Z) (max_pages : option Z)
    (page : Z) (all_items : list item) (w : W) :
  fetch_unsorted_loop (S fuel) per_page max_pages page all_items w
  = match client_get "/raindrops/0" [("perpage", JInt per_page); ("page", JInt page)] w with
    | (w', Raise e) => (w', Raise e)
    | (w', Ok r) =>
        if status_ok r
        then match body r with
             | [] => (w', Ok (Some all_items))
             | _ :: _ =>
                 if match max_pages with Some m => m <=? page + 1 | None => false end
                 then (w', Ok (Some (all_items ++ body r)))
                 else fetch_unsorted_loop fuel per_page max_pages (page + 1)
                        (all_items ++ body r) w'
             end
        else (w', Raise HTTPStatusError)
    end.
Proof.
  simpl. unfold bind at 1.
  destruct (client_get _ _ w) as [w' [r|e]]; [|reflexivity].
  unfold bind, raise_for_status, ret, raise.
  destruct (status_ok r); [|reflexivity].
  destruct (body r); [reflexivity|].
  destruct (match max_pages with Some m => _ | None => false end); reflexivity.
Qed.

(** A result reached with some fuel is reached with any larger fuel. *)
Lemma fetch_unsorted_loop_more_fuel (per_page : Z) (max_pages : option Z) :
  forall (fuel fuel' : nat) (page : Z) (all_items : list item) (w : W),
    (fuel <= fuel')%nat ->
    snd (fetch_unsorted_loop fuel per_page max_pages page all_items w) <> Ok None ->
    fetch_unsorted_loop fuel' per_page max_pages page all_items w
    = fetch_unsorted_loop fuel per_page max_pages page all_items w.
Proof.
  induction fuel as [|fuel IH]; intros fuel' page all_items w Hle Hres.
  - simpl in Hres. congruence.
  - destruct fuel' as [|fuel']; [lia|].
    rewrite !fetch_unsorted_loop_step in *.
    destruct (client_get _ _ w) as [w' [r|e]]; [|reflexivity].
    destruct (status_ok r); [|reflexivity].
    destruct (body r); [reflexivity|].
    destruct (match max_pages with Some m => _ | None => false end); [reflexivity|].
    apply IH; [lia | exact Hres].
Qed.

Lemma fetch_unsorted_loop_capped (per_page m : Z) :
  forall (fuel : nat) (page : Z) (all_items : list item) (w : W),
    (Z.to_nat (Z.max 1 (m - page)) <= fuel)%nat ->
    snd (fetch_unsorted_loop fuel per_page (Some m) page all_items w) <> Ok None.
Proof.
  induction fuel as [|fuel IH]; intros page all_items w Hfuel; [lia|].
  rewrite fetch_unsorted_loop_step.
  destruct (client_get _ _ w) as [w' [r|e]]; [|discriminate].
  destruct (status_ok r); [|discriminate].
  destruct (body r); [discriminate|].
  destruct (m <=? page + 1) eqn:Hm; [discriminate|].
  apply Z.leb_gt in Hm. apply IH. lia.
Qed.

(** With a page cap the fetch ends: [max(1, max_pages)] iterations are
    enough, whatever the server answers, and more fuel changes nothing. *)
Theorem fetch_unsorted_ends_with_cap (fuel : nat) (per_page m : Z) (w : W) :
  (Z.to_nat (Z.max 1 m) <= fuel)%nat ->
  snd (fetch_unsorted fuel per_page (Some m) w) <> Ok None
  /\ fetch_unsorted fuel per_page (Some m) w
     = fetch_unsorted (Z.to_nat (Z.max 1 m)) per_page (Some m) w.
Proof.
  intros Hfuel. unfold fetch_unsorted.
  assert (Hb : snd (fetch_unsorted_loop (Z.to_nat (Z.max 1 m)) per_page (Some m) 0 [] w)
               <> Ok None)
    by (apply fetch_unsorted_loop_capped; rewrite Z.sub_0_r; lia).
  split.
  - rewrite (fetch_unsorted_loop_more_fuel per_page (Some m) _ fuel 0 [] w Hfuel Hb).
    exact Hb.
  - now apply fetch_unsorted_loop_more_fuel.
Qed.

(** The first page decides in four cases: a request that raises, or an
    error status, raises with no item returned; an empty page gives the
    empty list; and with a cap of one page or less, zero and negative caps
    included, a page with items is returned as it is, after that one
    request. *)
Theorem fetch_unsorted_first_page (fuel : nat) (per_page : Z) (max_pages : option Z)
    (w : W) :
  let first := client_get "/raindrops/0" [("perpage", JInt per_page); ("page", JInt 0)] w in
  let run := fetch_unsorted (S fuel) per_page max_pages w in
  (forall w' e, first = (w', Raise e) -> run = (w', Raise e))
  /\ (forall w' r, first = (w', Ok r) -> status_ok r = false ->
        run = (w', Raise HTTPStatusError))
  /\ (forall w' r, first = (w', Ok r) -> status_ok r = true -> body r = [] ->
        run = (w', Ok (Some [])))
  /\ (forall w' r m, first = (w', Ok r) -> status_ok r = true -> body r <> [] ->
        max_pages = Some m -> m <= 1 ->
        run = (w', Ok (Some (body r)))).
Proof.
  cbv zeta. unfold fetch_unsorted. rewrite fetch_unsorted_loop_step.
  split; [|split; [|split]].
  - intros w' e ->. reflexivity.
  - intros w' r -> ->. reflexivity.
  - intros w' r -> -> ->. reflexivity.
  - intros w' r m -> -> Hne -> Hm. destruct (body r) as [|it its]; [contradiction|].
    change (0 + 1) with 1. apply Z.leb_le in Hm. now rewrite Hm.
Qed.

Lemma page_slice_nat (l : list item) (per_page : Z) (k : nat) :
  0 < per_page ->
  page_slice l per_page (Z.of_nat k)
  = take (Z.to_nat per_page) (drop (k * Z.to_nat per_page) l).
Proof.
  intros Hpp. unfold page_slice. do 2 f_equal.
  rewrite Z2Nat.inj_mul by lia. now rewrite Nat2Z.id.
Qed.

Lemma fetch_unsorted_loop_pages (inv : W -> Prop) (l : list item) (per_page : Z)
    (max_pages : option Z) :
  0 < per_page -> serves_pages inv l per_page ->
  forall (fuel k : nat) (w : W),
    inv w ->
    (length (drop (k * Z.to_nat per_page) l) < fuel)%nat ->
    exists w', inv w'
      /\ fetch_unsorted_loop fuel per_page max_pages (Z.of_nat k)
           (take (k * Z.to_nat per_page) l) w
         = (w', Ok (Some match max_pages with
                         | None => l
                         | Some m =>
                             take (Z.to_nat (Z.max (Z.of_nat k + 1) m) * Z.to_nat per_page) l
                         end)).
Proof.
  intros Hpp Hserve. set (n := Z.to_nat per_page). assert (Hn : (1 <= n)%nat) by (unfold n; lia).
  induction fuel as [|fuel IH]; intros k w Hinv Hfuel; [lia|].
  rewrite fetch_unsorted_loop_step.
  destruct (Hserve w (Z.of_nat k) Hinv ltac:(lia)) as (w' & Hinv' & ->). simpl.
  rewrite (page_slice_nat l per_page k Hpp). fold n.
  destruct (take n (drop (k * n) l)) as [|it its] eqn:Hpage.
  - exists w'. split; [exact Hinv'|]. do 3 f_equal.
    assert (Hend : drop (k * n) l = []).
    { destruct (drop (k * n) l) as [|x xs] eqn:Hd; [reflexivity|].
      destruct n; [lia | discriminate]. }
    assert (Hlen : (length l <= k * n)%nat).
    { apply (f_equal length) in Hend. rewrite length_drop in Hend. simpl in Hend. lia. }
    destruct max_pages as [m|].
    + rewrite !take_ge; [reflexivity | | exact Hlen].
      assert (Z.to_nat (Z.max (Z.of_nat k + 1) m) >= k)%nat by lia. nia.
    + now apply take_ge.
  - assert (Hacc : take (k * n) l ++ it :: its = take (S k * n) l).
    { rewrite <- Hpage, take_take_drop. f_equal. lia. }
    rewrite Hacc.
    assert (Hshrink : (length (drop (S k * n) l) < length (drop (k * n) l))%nat).
    { rewrite !length_drop.
      assert (length (drop (k * n) l) > 0)%nat.
      { destruct (drop (k * n) l); [now rewrite take_nil in Hpage | simpl; lia]. }
      rewrite length_drop in *. simpl. nia. }
    destruct max_pages as [m|].
    + destruct (m <=? Z.of_nat k + 1) eqn:Hm.
      * exists w'. split; [exact Hinv'|]. apply Z.leb_le in Hm.
        do 4 f_equal. lia.
      * apply Z.leb_gt in Hm.
        destruct (IH (S k) w' Hinv' ltac:(lia)) as (w'' & Hinv'' & Hrun).
        exists w''. split; [exact Hinv''|].
        replace (Z.of_nat k + 1) with (Z.of_nat (S k)) by lia.
        rewrite Hrun.
        replace (Z.max (Z.of_nat (S k) + 1) m) with (Z.max (Z.of_nat (S k)) m) by lia.
        reflexivity.
    + destruct (IH (S k) w' Hinv' ltac:(lia)) as (w'' & Hinv'' & Hrun).
      exists w''. split; [exact Hinv''|].
      replace (Z.of_nat k + 1) with (Z.of_nat (S k)) by lia. exact Hrun.
Qed.

(** Against a server that answers each page request with that page of a
    fixed list, the fetch returns the whole list, each item once and in
    order, when there is no cap, and the first [max(1, max_pages)] pages of
    it when there is one. *)
Theorem fetch_unsorted_collects_pages (inv : W -> Prop) (l : list item) (per_page : Z)
    (max_pages : option Z) (fuel : nat) (w : W) :
  0 < per_page -> serves_pages inv l per_page -> inv w ->
  (length l < fuel)%nat ->
  exists w', inv w'
    /\ fetch_unsorted fuel per_page max_pages w
       = (w', Ok (Some match max_pages with
                       | None => l
                       | Some m => take (Z.to_nat (Z.max 1 m * per_page)) l
                       end)).
Proof.
  intros Hpp Hserve Hinv Hfuel. unfold fetch_unsorted.
  destruct (fetch_unsorted_loop_pages inv l per_page max_pages Hpp Hserve fuel 0%nat w Hinv)
    as (w' & Hinv' & Hrun); [simpl; exact Hfuel|].
  exists w'. split; [exact Hinv'|].
  change (fetch_unsorted_loop fuel per_page max_pages 0 [] w
          = (w', Ok (Some match max_pages with
                          | None => l
                          | Some m =>
                              take (Z.to_nat (Z.max (0 + 1) m) * Z.to_nat per_page) l
                          end))) in Hrun.
  rewrite Hrun. destruct max_pages as [m|]; [|reflexivity].
  rewrite Z2Nat.inj_mul by lia. reflexivity.
Qed.

End Fetching.

Lemma fetch_unsorted_ends_with_cap_witness :
  (Z.to_nat (Z.max 1 2) <= 5)%nat
  /\ snd (@suggest_collections.fetch_unsorted _ Mock.client 5 100 (Some 2)
            (Mock.online [Sample.stored 1])) <> Ok None.
Proof.
  assert (Hfuel : (Z.to_nat (Z.max 1 2) <= 5)%nat) by (vm_compute; lia).
  split; [exact Hfuel|].
  exact (proj1 (@fetch_unsorted_ends_with_cap _ Mock.client 5 100 2
                  (Mock.online [Sample.stored 1]) Hfuel)).
Defined.

Lemma fetch_unsorted_collects_pages_witness :
  let l := [Sample.stored 1; Sample.stored 2; Sample.stored 3] in
  let inv := fun w => Mock.store w = l /\ Mock.reachable w = true /\ Mock.accepts w = true in
  @serves_pages _ Mock.paged inv l 2
  /\ exists w', inv w'
       /\ @suggest_collections.fetch_unsorted _ Mock.paged 4 2 None (Mock.online l)
          = (w', Ok (Some l)).
Proof.
  cbv zeta.
  assert (Hserve : @serves_pages _ Mock.paged
                     (fun w => Mock.store w = [Sample.stored 1; Sample.stored 2; Sample.stored 3]
                               /\ Mock.reachable w = true /\ Mock.accepts w = true)
                     [Sample.stored 1; Sample.stored 2; Sample.stored 3] 2).
  { intros w page (Hs & Hr & Ha) Hpage. eexists. split; [|].
    2: { simpl. unfold Mock.send. rewrite Hr, Ha. unfold Mock.page_of. simpl.
         rewrite Hs. reflexivity. }
    simpl. auto. }
  split; [exact Hserve|].
  apply (@fetch_unsorted_collects_pages _ Mock.paged _ _ 2 None 4 _ ltac:(lia) Hserve).
  - simpl. auto.
  - simpl. lia.
Defined.

(** ** The reclassification loop *)

Section Reclassifying.
Context `{Interpreter} {W : Type} `{Client W}.
Import Urllib suggest_collections.
Local Open Scope eff_scope.

Lemma main_item_cases (a : args) (rules : list rule) (s : stats) (it : item) (w : W) :
  main_item a rules s it w
  = match guess_collection (default [] (item_tags it)) rules with
    | Some guess =>
        if apply a
        then match move_raindrop (item_id it) guess w with
             | (w', Ok ok) =>
                 (w', Ok (if ok : bool
                          then incr_moved (incr_guessed (incr_total s))
                          else incr_guessed (incr_total s)))
             | (w', Raise e) => (w', Raise e)
             end
        else (w, Ok (incr_guessed (incr_total s)))
    | None =>
        match suggest_new_collection (default [] (item_tags it)) (default "" (item_link it)) with
        | Ok _ => (w, Ok (incr_unmatched (incr_total s)))
        | Raise e => (w, Raise e)
        end
    end.
Proof.
  unfold main_item. destruct (guess_collection _ rules) as [guess|].
  - destruct (apply a); [|reflexivity].
    unfold bind, ret. destruct (move_raindrop (item_id it) guess w) as [w' [ok|e]]; reflexivity.
  - unfold bind, lift, ret. destruct (suggest_new_collection _ _); reflexivity.
Qed.

(** Over a run that ends, every item is counted once in [total] and once
    as guessed or unmatched, guessed being the items some rule matches; and
    no more items are moved than are guessed. *)
Theorem reclassify_counters (a : args) (rules : list rule) (items : list item)
    (s s' : stats) (w w' : W) :
  main_items a rules items s w = (w', Ok s') ->
  let matched :=
    List.filter (fun it => bool_decide (is_Some (guess_collection (default [] (item_tags it))
                                                   rules))) items in
  total s' = total s + Z.of_nat (length items)
  /\ guessed s' = guessed s + Z.of_nat (length matched)
  /\ unmatched s' = unmatched s + Z.of_nat (length items) - Z.of_nat (length matched)
  /\ moved s <= moved s' <= moved s + Z.of_nat (length matched)
  /\ (apply a = false -> moved s' = moved s).
Proof.
  cbv zeta. revert s w. induction items as [|it items IH]; intros s w.
  - simpl. intros Heq. inversion Heq. subst. repeat split; lia.
  - simpl main_items. unfold bind at 1. rewrite main_item_cases. simpl List.filter.
    destruct (guess_collection (default [] (item_tags it)) rules) as [guess|].
    + rewrite bool_decide_eq_true_2 by eauto.
      destruct (apply a).
      * destruct (move_raindrop (item_id it) guess w) as [w1 [[|]|e]]; [| |discriminate];
          intros Hrun; apply IH in Hrun as (Ht & Hg & Hu & Hm & Ha); simpl in *;
          repeat split; try lia; discriminate.
      * intros Hrun. apply IH in Hrun as (Ht & Hg & Hu & Hm & Ha); simpl in *.
        specialize (Ha eq_refl). repeat split; try lia; intros _; lia.
    + rewrite bool_decide_eq_false_2 by (intros [x Hx]; discriminate).
      destruct (suggest_new_collection _ _); [|discriminate].
      intros Hrun. apply IH in Hrun as (Ht & Hg & Hu & Hm & Ha); simpl in *.
      repeat split; try lia; intros Hx; specialize (Ha Hx); lia.
Qed.

(** Without [--apply] the loop sends nothing, whether it ends or raises,
    and it ends when every item has a tag or a link that [urlparse]
    accepts. *)
Theorem suggest_only_is_silent (a : args) (rules : list rule) (items : list item)
    (s : stats) (w : W) :
  apply a = false ->
  fst (main_items a rules items s w) = w
  /\ (Forall (fun it => default [] (item_tags it) <> []
                        \/ exists host, urlparse_netloc (default "" (item_link it)) = Ok host)
        items ->
      exists s', main_items a rules items s w = (w, Ok s')).
Proof.
  intros Happly. split.
  - revert s. induction items as [|it items IH]; intros s; [reflexivity|].
    simpl main_items. unfold bind at 1. rewrite main_item_cases, Happly.
    destruct (guess_collection _ rules); [apply IH|].
    destruct (suggest_new_collection _ _); [apply IH | reflexivity].
  - intros Hall. revert s. induction Hall as [|it items Hit _ IH]; intros s.
    + exists s. reflexivity.
    + simpl main_items. unfold bind at 1. rewrite main_item_cases, Happly.
      destruct (guess_collection _ rules); [apply IH|].
      unfold suggest_new_collection.
      destruct (default [] (item_tags it)) as [|t ts] eqn:Htags; [|apply IH].
      destruct Hit as [Hne|(host & Hhost)]; [contradiction|].
      rewrite Hhost. apply IH.
Qed.

(** A map file that the loader refuses stops either script before any
    request: with [sys.exit(1)] when the loader raised [ValueError], and
    with the loader's own exception otherwise, which neither [main]
    catches. With a good map, a missing token stops the reclassifier in the
    same way. *)
Theorem bad_map_stops_the_run (data : json) (w : W) :
  (forall e,
      pinboard_to_raindrop.load_collection_map (Some data) = Raise e ->
      let out := if ValueError_any e then SystemExit 1 else e in
      (forall a posts, pinboard_to_raindrop.main a (Some data) posts w = (w, Raise out))
      /\ (forall fuel a token,
            suggest_collections.main fuel a data token w = (w, Raise out)))
  /\ (forall rules fuel a token,
        suggest_collections.load_collection_map data = Ok rules ->
        truthy_opt token = false ->
        suggest_collections.main fuel a data token w = (w, Raise (SystemExit 1))).
Proof.
  split.
  - intros e Hbad. cbv zeta. split.
    + intros a posts. unfold pinboard_to_raindrop.main, bind, try_except, lift, raise.
      rewrite Hbad. destruct (ValueError_any e); reflexivity.
    + intros fuel a token. unfold main, bind, try_except, lift, raise.
      rewrite loaders_agree, Hbad. destruct (ValueError_any e); reflexivity.
  - intros rules fuel a token Hok Htok.
    unfold main, bind, try_except, lift, raise. now rewrite Hok, Htok.
Qed.

End Reclassifying.

(** A map whose collection id is [null] makes [int] raise [TypeError], which
    leaves [main] as it is, not as an exit. *)
Example null_id_escapes_main :
  @pinboard_to_raindrop.main ascii_interpreter _ Mock.client (Sample.options true false)
    (Some (JList [JObj {[ "collection_id" := JNull; "tags" := JList [] ]}]))
    [Sample.post] (Mock.online [])
  = (Mock.online [], Raise TypeError).
Proof. vm_compute. reflexivity. Qed.

Lemma reclassify_counters_witness :
  let a := {| suggest_collections.per_page := 100; suggest_collections.max_pages := None;
              suggest_collections.apply := true |} in
  let tagged := {| item_id := 1; item_tags := Some ["work"]; item_link := Some Sample.url |} in
  let bare := {| item_id := 2; item_tags := Some [];
                 item_link := Some "https://www.host.com/x" |} in
  let s' := {| suggest_collections.total := 2; suggest_collections.guessed := 1;
               suggest_collections.moved := 1; suggest_collections.unmatched := 1 |} in
  snd (@suggest_collections.main_items _ Mock.client ascii_interpreter a [Sample.work_rule]
         [tagged; bare] suggest_collections.stats0 (Mock.online [])) = Ok s'
  /\ suggest_collections.total s' = 0 + Z.of_nat (length [tagged; bare]).
Proof.
  cbv zeta. split; [vm_compute; reflexivity|].
  assert (Hrun : exists w',
             @suggest_collections.main_items _ Mock.client ascii_interpreter
               {| suggest_collections.per_page := 100; suggest_collections.max_pages := None;
                  suggest_collections.apply := true |} [Sample.work_rule]
               [ {| item_id := 1; item_tags := Some ["work"]; item_link := Some Sample.url |};
                 {| item_id := 2; item_tags := Some [];
                    item_link := Some "https://www.host.com/x" |} ]
               suggest_collections.stats0 (Mock.online [])
             = (w', Ok {| suggest_collections.total := 2; suggest_collections.guessed := 1;
                          suggest_collections.moved := 1;
                          suggest_collections.unmatched := 1 |})).
  { eexists. vm_compute. reflexivity. }
  destruct Hrun as (w' & Hrun).
  exact (proj1 (@reclassify_counters ascii_interpreter _ Mock.client _ _ _ _ _ _ _ Hrun)).
Defined.

Lemma suggest_only_is_silent_witness :
  let a := {| suggest_collections.per_page := 100; suggest_collections.max_pages := None;
              suggest_collections.apply := false |} in
  suggest_collections.apply a = false
  /\ fst (@suggest_collections.main_items _ Mock.client ascii_interpreter a [Sample.work_rule]
            [ {| item_id := 1; item_tags := Some ["work"]; item_link := Some Sample.url |};
              {| item_id := 2; item_tags := None; item_link := Some "http://[" |} ]
            suggest_collections.stats0 (Mock.online []))
     = Mock.online [].
Proof.
  cbv zeta. split; [reflexivity|].
  exact (proj1 (@suggest_only_is_silent ascii_interpreter _ Mock.client
                  {| suggest_collections.per_page := 100;
                     suggest_collections.max_pages := None;
                     suggest_collections.apply := false |} _ _ _ _ eq_refl)).
Defined.
